(** * A recursive-descent parser for a small regular-expression grammar

    Shallow embedding of [src/main.py]: the AST classes ([Node] and its
    subclasses) with their [__str__] rendering, and the [Parser] class, whose
    methods mutate [self.tokens] and [self.failure] and print diagnostics to
    [sys.stderr].  The methods are modelled in a small state-and-exception
    monad over the parser object; the mutually recursive grammar rules take a
    fuel argument that bounds the depth of the call chain. *)

From Stdlib Require Import List String Ascii Bool Arith Lia.
Import ListNotations.

Local Open Scope list_scope.

(** ** Grammar (AST model) *)

(** [class Node] and its five subclasses.  [NodeObj] is a bare instance of
    the base class, as created by [Node()] in [Parser.base]. *)
#[local] Unset Elimination Schemes.
Inductive Node : Type :=
| NodeObj : Node
| Normal (char : ascii) : Node
| Any : Node
| ZeroOrMore (exp : Node) : Node
| Or (exp1 exp2 : Node) : Node
| Str (exps : list Node) : Node.
#[local] Set Elimination Schemes.

(** The text Python's default [object.__str__] yields for a bare [Node]
    (the real text ends with the address of the object, elided here). *)
Definition object_repr : string := "<__main__.Node object>"%string.

(** [__str__] of each class: the display form. *)
Fixpoint to_str (n : Node) : string :=
  match n with
  | NodeObj => object_repr
  | Normal char => String char EmptyString
  | Any => "."%string
  | ZeroOrMore exp => (to_str exp ++ "*")%string
  | Or exp1 exp2 => (to_str exp1 ++ "|" ++ to_str exp2)%string
  | Str exps => ("(" ++ String.concat "" (map to_str exps) ++ ")")%string
  end.

(** Induction principle that reaches the children of a [Str]. *)
Section NodeInd.
Variable P : Node -> Prop.
Hypothesis HNodeObj : P NodeObj.
Hypothesis HNormal : forall c, P (Normal c).
Hypothesis HAny : P Any.
Hypothesis HZeroOrMore : forall e, P e -> P (ZeroOrMore e).
Hypothesis HOr : forall e1 e2, P e1 -> P e2 -> P (Or e1 e2).
Hypothesis HStr : forall exps, Forall P exps -> P (Str exps).

Fixpoint Node_nested_ind (n : Node) : P n :=
  match n with
  | NodeObj => HNodeObj
  | Normal c => HNormal c
  | Any => HAny
  | ZeroOrMore e => HZeroOrMore e (Node_nested_ind e)
  | Or e1 e2 => HOr e1 e2 (Node_nested_ind e1) (Node_nested_ind e2)
  | Str exps =>
      HStr exps
        ((fix all (l : list Node) : Forall P l :=
            match l with
            | [] => Forall_nil P
            | e :: l' => Forall_cons e (Node_nested_ind e) (all l')
            end) exps)
  end.
End NodeInd.

(** ** Parser state *)

(** The attributes of a [Parser] object, together with the lines it has
    printed to [sys.stderr] so far (oldest first). *)
Record Parser : Type := mkParser {
  inp : string;
  tokens : list ascii;
  failure : bool;
  stderr : list string
}.

Definition set_tokens (p : Parser) (t : list ascii) : Parser :=
  mkParser (inp p) t (failure p) (stderr p).

(** [Parser.__init__] *)
Definition new_Parser (inp : string) : Parser :=
  mkParser inp (list_ascii_of_string inp) false [].

(** ** The monad of parser methods *)

(** A method call either returns a value and the updated object, or raises
    [IndexError] (indexing an empty list), or exhausts the model's fuel. *)
Inductive Outcome (A : Type) : Type :=
| Ret (a : A) (p : Parser)
| IndexError
| OutOfFuel.
Arguments Ret {A} a p.
Arguments IndexError {A}.
Arguments OutOfFuel {A}.

Definition M (A : Type) : Type := Parser -> Outcome A.

Definition ret {A} (a : A) : M A := fun p => Ret a p.

Definition bind {A B} (m : M A) (k : A -> M B) : M B :=
  fun p =>
    match m p with
    | Ret a p' => k a p'
    | IndexError => IndexError
    | OutOfFuel => OutOfFuel
    end.

Notation "x <- m ;; k" := (bind m (fun x => k))
  (at level 61, m at next level, right associativity).
Notation "m ;; k" := (bind m (fun _ => k))
  (at level 61, right associativity).

Definition get_tokens : M (list ascii) := fun p => Ret (tokens p) p.
Definition get_failure : M bool := fun p => Ret (failure p) p.
Definition raise_IndexError {A} : M A := fun _ => IndexError.
Definition out_of_fuel {A} : M A := fun _ => OutOfFuel.

(** Truth value of a Python list: non-empty. *)
Definition truthy {A} (l : list A) : bool :=
  match l with [] => false | _ :: _ => true end.

(** ** Primitive operations *)

(** [self.tokens = self.tokens[1:]] *)
Definition next_token : M unit :=
  fun p => Ret tt (set_tokens p (tl (tokens p))).

(** [return self.tokens[0]] *)
Definition peek : M ascii :=
  toks <- get_tokens ;;
  match toks with
  | [] => raise_IndexError
  | c :: _ => ret c
  end.

Definition accept (symbol : ascii) : M bool :=
  toks <- get_tokens ;;
  match toks with
  | c :: _ =>
      if Ascii.eqb c symbol then next_token ;; ret true else ret false
  | [] => ret false
  end.

(** A line of [sys.stderr], as [Parser.error] formats it. *)
Definition err_line (inp message : string) : string :=
  ("Parsing error on input '" ++ inp ++ "' : " ++ message)%string.

(** [print(f"Parsing error on input '{self.inp}' : {message}",
    file=sys.stderr); self.failure = True] *)
Definition error (message : string) : M unit :=
  fun p =>
    Ret tt
      (mkParser (inp p) (tokens p) true
         (stderr p ++ [err_line (inp p) message])).

Definition unexpected_symbol (c : ascii) : string :=
  ("Unexpected symbol: " ++ String c EmptyString)%string.

(** Returns [True], or falls off the end (Python's [None]) after recording
    the error. *)
Definition expect (symbol : ascii) : M (option bool) :=
  a <- accept symbol ;;
  if a then ret (Some true)
  else
    toks <- get_tokens ;;
    (if truthy toks
     then c <- peek ;; error (unexpected_symbol c)
     else error "Unexpected end of file") ;;
    ret None.

(** ** Grammar rules *)

(** The condition of the [while] in [Parser.term], with Python's
    short-circuit evaluation. *)
Definition term_continues : M bool :=
  toks <- get_tokens ;;
  if truthy toks then
    c <- peek ;;
    if Ascii.eqb c ")" then ret false
    else
      c' <- peek ;;
      ret (negb (Ascii.eqb c' "|"))
  else ret false.

(** [regex], [term] (with its loop as [term_loop], carrying [factor.exps]),
    [factor] and [base].  Every call spends one unit of fuel. *)
Fixpoint regex (fuel : nat) : M Node :=
  match fuel with
  | O => out_of_fuel
  | S fuel =>
      term1 <- term fuel ;;
      toks <- get_tokens ;;
      b <- (if truthy toks then accept "|" else ret false) ;;
      if b then
        term2 <- term fuel ;;
        ret (Or term1 term2)
      else ret term1
  end

with term (fuel : nat) : M Node :=
  match fuel with
  | O => out_of_fuel
  | S fuel =>
      exps <- term_loop fuel [] ;;
      (if negb (truthy exps) then error "Empty factor" else ret tt) ;;
      ret (match exps with
           | [e] => e
           | _ => Str exps
           end)
  end

with term_loop (fuel : nat) (exps : list Node) : M (list Node) :=
  match fuel with
  | O => out_of_fuel
  | S fuel =>
      go <- term_continues ;;
      if go then
        next_factor <- factor fuel ;;
        term_loop fuel (exps ++ [next_factor])
      else ret exps
  end

with factor (fuel : nat) : M Node :=
  match fuel with
  | O => out_of_fuel
  | S fuel =>
      b <- base fuel ;;
      star <- accept "*" ;;
      ret (if star then ZeroOrMore b else b)
  end

with base (fuel : nat) : M Node :=
  match fuel with
  | O => out_of_fuel
  | S fuel =>
      lp <- accept "(" ;;
      if lp then
        r <- regex fuel ;;
        expect ")" ;;
        ret r
      else
        dot <- accept "." ;;
        if dot then ret Any
        else
          star <- accept "*" ;;
          if star then
            error "Unexpected symbol: *" ;;
            ret NodeObj
          else
            c <- peek ;;
            next_token ;;
            ret (Normal c)
  end.

(** [Parser.parse] *)
Definition parse (fuel : nat) : M (option Node) :=
  r <- regex fuel ;;
  toks <- get_tokens ;;
  (if truthy toks
   then c <- peek ;; error (unexpected_symbol c)
   else ret tt) ;;
  f <- get_failure ;;
  ret (if negb f then Some r else None).

(** Fuel that suffices for an input: five calls per character plus the
    three outermost ones. *)
Definition fuel_for (inp : string) : nat := 5 * String.length inp + 3.

(** [Parser(inp).parse()] *)
Definition run_parse (inp : string) : Outcome (option Node) :=
  parse (fuel_for inp) (new_Parser inp).


(** ** Predicates used in the statements *)

(** A computation never clears the failure flag. *)
Definition sticky {A} (m : M A) : Prop :=
  forall p a p', m p = Ret a p' -> failure p = true -> failure p' = true.

(** Only the five subclasses occur, and every [Str] has at least two
    children. *)
Fixpoint well_formed (n : Node) : bool :=
  match n with
  | NodeObj => false
  | Normal _ => true
  | Any => true
  | ZeroOrMore exp => well_formed exp
  | Or exp1 exp2 => well_formed exp1 && well_formed exp2
  | Str exps => (2 <=? List.length exps) && forallb well_formed exps
  end.

(** ** Relations between the states of a call

    [step p p']: the input text is kept, tokens are only consumed from the
    front, lines are only appended to [sys.stderr], and the failure flag
    after the call is set exactly when it was set before or a line was
    printed. *)
Definition step (p p' : Parser) : Prop :=
  inp p' = inp p /\
  exists consumed msgs,
    tokens p = consumed ++ tokens p' /\
    stderr p' = stderr p ++ msgs /\
    failure p' = failure p || truthy msgs.

(** A computation all of whose returns are [step]s. *)
Definition preserves {A} (m : M A) : Prop :=
  forall p a p', m p = Ret a p' -> step p p'.

(** [more m m']: wherever [m] does not run out of fuel, [m'] behaves as [m]
    does, be it a return or an [IndexError]. *)
Definition more {A} (m m' : M A) : Prop :=
  forall p, m p <> OutOfFuel -> m' p = m p.

(** The call returns: no exception, and fuel left. *)
Definition returns {A} (m : M A) (p : Parser) : Prop :=
  exists a p', m p = Ret a p'.

(** The tokens on which the loop of [term] stops. *)
Definition ends_term (toks : list ascii) : Prop :=
  toks = [] \/
  exists c rest, toks = c :: rest /\ (c = ")"%char \/ c = "|"%char).

(** After a regex comes the end of the input or a closing parenthesis. *)
Definition ends_regex (toks : list ascii) : Prop :=
  toks = [] \/ exists rest, toks = ")"%char :: rest.

(** What a base, a factor and a run of factors start with. *)
Definition starts_base (s : list ascii) : Prop :=
  exists c s', s = c :: s' /\
               c <> ")"%char /\ c <> "|"%char /\ c <> "*"%char.

(** ** The grammar of the specification

    The specification's four rule levels, as relations between the
    characters a rule consumes and the tree it yields: a regex is one term,
    or two terms around a bar (an Alternative); a term is one or more
    factors, a single factor being returned unwrapped and several as a
    Sequence; a factor is a base, optionally followed by one star (a
    Repeat); a base is a literal character, a dot (the Wildcard) or a
    parenthesised regex. *)

(** The characters reserved as structural symbols. *)
Definition reserved (c : ascii) : bool :=
  existsb (Ascii.eqb c) ["("; ")"; "|"; "*"; "."]%char.

Definition is_literal (c : ascii) : bool := negb (reserved c).

(** The singleton collapse. *)
Definition collapse (exps : list Node) : Node :=
  match exps with
  | [e] => e
  | _ => Str exps
  end.

Inductive spec_regex : list ascii -> Node -> Prop :=
| spec_regex_term s t :
    spec_term s t -> spec_regex s t
| spec_regex_alt s1 t1 s2 t2 :
    spec_term s1 t1 -> spec_term s2 t2 ->
    spec_regex (s1 ++ "|"%char :: s2) (Or t1 t2)

with spec_term : list ascii -> Node -> Prop :=
| spec_term_factors s ts :
    spec_factors s ts -> spec_term s (collapse ts)

with spec_factors : list ascii -> list Node -> Prop :=
| spec_factors_one s t :
    spec_factor s t -> spec_factors s [t]
| spec_factors_more s1 t s2 ts :
    spec_factor s1 t -> spec_factors s2 ts ->
    spec_factors (s1 ++ s2) (t :: ts)

with spec_factor : list ascii -> Node -> Prop :=
| spec_factor_base s t :
    spec_base s t -> spec_factor s t
| spec_factor_star s t :
    spec_base s t -> spec_factor (s ++ ["*"%char]) (ZeroOrMore t)

with spec_base : list ascii -> Node -> Prop :=
| spec_base_char c :
    is_literal c = true -> spec_base [c] (Normal c)
| spec_base_any :
    spec_base ["."%char] Any
| spec_base_group s t :
    spec_regex s t -> spec_base ("("%char :: s ++ [")"%char]) t.

Scheme spec_regex_mut := Minimality for spec_regex Sort Prop
  with spec_term_mut := Minimality for spec_term Sort Prop
  with spec_factors_mut := Minimality for spec_factors Sort Prop
  with spec_factor_mut := Minimality for spec_factor Sort Prop
  with spec_base_mut := Minimality for spec_base Sort Prop.

Combined Scheme spec_grammar_ind from
  spec_regex_mut, spec_term_mut, spec_factors_mut, spec_factor_mut,
  spec_base_mut.

(** A valid input: a string the grammar derives as a regex. *)
Definition valid_input (inp : string) : Prop :=
  exists t, spec_regex (list_ascii_of_string inp) t.

(** Rendering the tree of an input and parsing the rendering again succeeds,
    with a tree that renders to the same text. *)
Definition render_stable (inp : string) : Prop :=
  exists t p',
    run_parse inp = Ret (Some t) p' /\
    exists t' p'',
      run_parse (to_str t) = Ret (Some t') p'' /\ to_str t' = to_str t.

(** No [Or] anywhere in the tree. *)
Fixpoint or_free (n : Node) : bool :=
  match n with
  | Or _ _ => false
  | ZeroOrMore exp => or_free exp
  | Str exps => forallb or_free exps
  | _ => true
  end.

(** No [ZeroOrMore] is the direct child of a [ZeroOrMore]. *)
Fixpoint star_once (n : Node) : bool :=
  match n with
  | ZeroOrMore exp =>
      match exp with
      | ZeroOrMore _ => false
      | _ => star_once exp
      end
  | Or exp1 exp2 => star_once exp1 && star_once exp2
  | Str exps => forallb star_once exps
  | _ => true
  end.

(** No [Or] below the root. *)
Definition or_at_root_only (n : Node) : bool :=
  match n with
  | Or exp1 exp2 => or_free exp1 && or_free exp2
  | _ => or_free n
  end.

(** The shape of the trees the grammar yields: no bare [Node], literal
    characters only in [Normal], at least two children in every [Str]. *)
Fixpoint grammar_shape (n : Node) : bool :=
  match n with
  | NodeObj => false
  | Normal char => is_literal char
  | Any => true
  | ZeroOrMore exp => grammar_shape exp
  | Or exp1 exp2 => grammar_shape exp1 && grammar_shape exp2
  | Str exps => (2 <=? List.length exps) && forallb grammar_shape exps
  end.

(** The characters of the display form. *)
Definition to_chars (n : Node) : list ascii := list_ascii_of_string (to_str n).

(** ** Further predicates *)

(** The reasons [Parser.error] is ever called with. *)
Definition known_message (m : string) : Prop :=
  m = "Empty factor"%string \/ m = "Unexpected end of file"%string \/
  exists c, m = unexpected_symbol c.

(** Between two states only diagnostics of the known reasons were printed,
    all about the same input text. *)
Definition reports (p p' : Parser) : Prop :=
  inp p' = inp p /\
  exists msgs,
    stderr p' = stderr p ++ map (err_line (inp p)) msgs /\
    Forall known_message msgs.

(** A computation all of whose returns are [reports]. *)
Definition reporting {A} (m : M A) : Prop :=
  forall p a p', m p = Ret a p' -> reports p p'.

(** A text without its parentheses. *)
Definition is_paren (c : ascii) : bool :=
  Ascii.eqb c "(" || Ascii.eqb c ")".

Definition strip_parens (s : list ascii) : list ascii :=
  filter (fun c => negb (is_paren c)) s.

(** As many opening as closing parentheses. *)
Definition balanced (s : list ascii) : Prop :=
  count_occ ascii_dec s "("%char = count_occ ascii_dec s ")"%char.

(** No bare [Node] anywhere in the tree. *)
Fixpoint concrete (n : Node) : bool :=
  match n with
  | NodeObj => false
  | Normal _ => true
  | Any => true
  | ZeroOrMore exp => concrete exp
  | Or exp1 exp2 => concrete exp1 && concrete exp2
  | Str exps => forallb concrete exps
  end.

(** ** The debug form *)

(** What [ast_str] returns: a string, or Python's [None] when none of its
    [isinstance] tests holds. *)
Inductive StrOrNone : Type :=
| IsStr (s : string)
| IsNone.

(** [str(v)], as an f-string and [print] format such a value. *)
Definition py_str (v : StrOrNone) : string :=
  match v with
  | IsStr s => s
  | IsNone => "None"%string
  end.

(** A call that returns or raises [TypeError]. *)
Inductive Raising (A : Type) : Type :=
| Returned (a : A)
| TypeError.
Arguments Returned {A} a.
Arguments TypeError {A}.

(** [sep.join(items)] raises [TypeError] on an item that is not a string. *)
Fixpoint all_strings (items : list StrOrNone) : Raising (list string) :=
  match items with
  | [] => Returned []
  | IsStr s :: items' =>
      match all_strings items' with
      | Returned l => Returned (s :: l)
      | TypeError => TypeError
      end
  | IsNone :: _ => TypeError
  end.

Definition join (sep : string) (items : list StrOrNone) : Raising string :=
  match all_strings items with
  | Returned l => Returned (String.concat sep l)
  | TypeError => TypeError
  end.

(** The list comprehension [[f(e) for e in l]]: the calls are made in
    order and the first exception ends it. *)
Definition for_each {A B} (f : A -> Raising B) : list A -> Raising (list B) :=
  fix each (l : list A) : Raising (list B) :=
    match l with
    | [] => Returned []
    | e :: l' =>
        match f e with
        | Returned v =>
            match each l' with
            | Returned vs => Returned (v :: vs)
            | TypeError => TypeError
            end
        | TypeError => TypeError
        end
    end.

(** [ast_str].  A bare [Node] passes none of the tests and yields [None]. *)
Fixpoint ast_str (node : Node) : Raising StrOrNone :=
  match node with
  | Normal char =>
      Returned (IsStr ("Normal ('" ++ String char EmptyString ++ "')")%string)
  | Any => Returned (IsStr "Any ()"%string)
  | ZeroOrMore exp =>
      match ast_str exp with
      | Returned v => Returned (IsStr ("ZeroOrMore (" ++ py_str v ++ ")")%string)
      | TypeError => TypeError
      end
  | Or exp1 exp2 =>
      match ast_str exp1 with
      | Returned v1 =>
          match ast_str exp2 with
          | Returned v2 =>
              Returned
                (IsStr ("Or (" ++ py_str v1 ++ ", " ++ py_str v2 ++ ")")%string)
          | TypeError => TypeError
          end
      | TypeError => TypeError
      end
  | Str exps =>
      match for_each ast_str exps with
      | Returned items =>
          match join ", " items with
          | Returned s => Returned (IsStr ("Str ([" ++ s ++ "])")%string)
          | TypeError => TypeError
          end
      | TypeError => TypeError
      end
  | NodeObj => Returned IsNone
  end.

(** The characters of the debug form of a tree without bare [Node]. *)
Definition chars (s : string) : list ascii := list_ascii_of_string s.

Fixpoint join_chars (items : list (list ascii)) : list ascii :=
  match items with
  | [] => []
  | [x] => x
  | x :: rest => x ++ chars ", " ++ join_chars rest
  end.

Fixpoint debug_chars (n : Node) : list ascii :=
  match n with
  | NodeObj => chars "None"
  | Normal char => chars "Normal ('" ++ [char] ++ chars "')"
  | Any => chars "Any ()"
  | ZeroOrMore exp => chars "ZeroOrMore (" ++ debug_chars exp ++ chars ")"
  | Or exp1 exp2 =>
      chars "Or (" ++ debug_chars exp1 ++ chars ", " ++ debug_chars exp2 ++
      chars ")"
  | Str exps => chars "Str ([" ++ join_chars (map debug_chars exps) ++ chars "])"
  end.

(** No debug form is a proper prefix of another, so what follows one is
    determined as well. *)
Definition prefix_free_at (t1 : Node) : Prop :=
  concrete t1 = true ->
  forall t2, concrete t2 = true ->
  forall r1 r2, debug_chars t1 ++ r1 = debug_chars t2 ++ r2 ->
                t1 = t2 /\ r1 = r2.

(** [ast_str] on what [Parser.parse] returns: [None] is no instance of a
    node class either. *)
Definition ast_str_of_result (ast : option Node) : Raising StrOrNone :=
  match ast with
  | Some node => ast_str node
  | None => Returned IsNone
  end.

(** ** The driver *)

Inductive Uncaught : Type :=
| UncaughtIndexError
| UncaughtTypeError.

(** A run of [parse_reg_exp]: its return value (a node, or the empty
    string) and the lines printed to [sys.stdout] and [sys.stderr]; or an
    uncaught exception; or the model's fuel exhausted. *)
Inductive Run : Type :=
| Finished (value : Node + string) (stdout : list string) (errors : list string)
| Crashed (e : Uncaught)
| RunOutOfFuel.

Definition parse_reg_exp (inp : string) : Run :=
  match run_parse inp with
  | Ret ast p =>
      match ast_str_of_result ast with
      | Returned v =>
          Finished
            (match ast with
             | Some node => inl node
             | None => inr EmptyString
             end)
            [("Input: " ++ inp)%string;
             ("AST: " ++ py_str v)%string;
             ("RegEx: " ++ match ast with
                           | Some node => to_str node
                           | None => "None"
                           end)%string;
             "==="%string]
            (stderr p)
      | TypeError => Crashed UncaughtTypeError
      end
  | IndexError => Crashed UncaughtIndexError
  | OutOfFuel => RunOutOfFuel
  end.

(** The inputs of the [__main__] block, in order. *)
Definition demo_inputs : list string :=
  ["ab*"; "(ab)*"; "ab|a"; "a(b|a)"; "a|b*"; "(a|b)*"; "a|b";
   "a"; "ab"; "a.*"; "(a.*)|(bb)";
   ""; ")("; "*"; "a("; "()"; "a**"]%string.

Definition main : list Run := map parse_reg_exp demo_inputs.

(** The display form of the node a run returned, or the empty string it
    returned instead. *)
Definition returned_text (r : Run) : option string :=
  match r with
  | Finished (inl node) _ _ => Some (to_str node)
  | Finished (inr s) _ _ => Some s
  | _ => None
  end.

(** No [Str] with exactly one child anywhere in the tree. *)
Fixpoint no_singleton (n : Node) : bool :=
  match n with
  | ZeroOrMore exp => no_singleton exp
  | Or exp1 exp2 => no_singleton exp1 && no_singleton exp2
  | Str exps => negb (List.length exps =? 1) && forallb no_singleton exps
  | _ => true
  end.

(** ** Call depth

    Python allows a bounded number of nested calls and raises
    [RecursionError] at the call that would exceed it; the parser catches
    nothing, so the exception ends the parse.  This second model of the
    parser counts frames: every call of a function or method defined in
    [main.py] (the grammar rules, the primitive operations, the [__init__]
    of the node classes, [Str.add]) needs one frame, which it gives back on
    return; calls of built-ins ([print], [list.append], slicing) are taken
    to need none.  [frames] is the number of frames still available at a
    call. *)
Inductive Deep (A : Type) : Type :=
| Within (o : Outcome A)
| RecursionError.
Arguments Within {A} o.
Arguments RecursionError {A}.

Definition D (A : Type) : Type := Parser -> Deep A.

Definition ret_d {A} (a : A) : D A := fun p => Within (Ret a p).

Definition bind_d {A B} (m : D A) (k : A -> D B) : D B :=
  fun p =>
    match m p with
    | Within (Ret a p') => k a p'
    | Within IndexError => Within IndexError
    | Within OutOfFuel => Within OutOfFuel
    | RecursionError => RecursionError
    end.

Notation "x <~ m ;; k" := (bind_d m (fun x => k))
  (at level 61, m at next level, right associativity).
Notation "m ;;; k" := (bind_d m (fun _ => k))
  (at level 61, right associativity).

(** Code that calls no function of the program. *)
Definition shallow {A} (m : M A) : D A := fun p => Within (m p).

Definition recursion_error {A} : D A := fun _ => RecursionError.

(** A call: with no frame left it raises, otherwise the body runs with one
    frame less for its own calls. *)
Definition call {A} (body : nat -> D A) (frames : nat) : D A :=
  match frames with
  | O => recursion_error
  | S frames' => body frames'
  end.

(** The [__init__] of a node class, and [Str.add] (on the list of a [Str]
    under construction): one call each, nothing called inside. *)
Definition init {A} (node : A) : nat -> D A := call (fun _ => ret_d node).

Definition add (exps : list Node) (exp : Node) : nat -> D (list Node) :=
  call (fun _ => ret_d (exps ++ [exp])).

Definition next_token_d : nat -> D unit := call (fun _ => shallow next_token).

Definition peek_d : nat -> D ascii := call (fun _ => shallow peek).

Definition error_d (message : string) : nat -> D unit :=
  call (fun _ => shallow (error message)).

Definition accept_d (symbol : ascii) : nat -> D bool :=
  call (fun frames =>
    toks <~ shallow get_tokens ;;
    match toks with
    | c :: _ =>
        if Ascii.eqb c symbol then next_token_d frames ;;; ret_d true
        else ret_d false
    | [] => ret_d false
    end).

Definition expect_d (symbol : ascii) : nat -> D (option bool) :=
  call (fun frames =>
    a <~ accept_d symbol frames ;;
    if a then ret_d (Some true)
    else
      toks <~ shallow get_tokens ;;
      (if truthy toks
       then c <~ peek_d frames ;; error_d (unexpected_symbol c) frames
       else error_d "Unexpected end of file" frames) ;;;
      ret_d None).

Definition term_continues_d (frames : nat) : D bool :=
  toks <~ shallow get_tokens ;;
  if truthy toks then
    c <~ peek_d frames ;;
    if Ascii.eqb c ")" then ret_d false
    else
      c' <~ peek_d frames ;;
      ret_d (negb (Ascii.eqb c' "|"))
  else ret_d false.

(** The [while] loop of [term].  Its iterations are bounded by [n], which
    [term_d] sets above the number of tokens left. *)
Fixpoint while_d (cond : D bool) (body : list Node -> D (list Node))
    (n : nat) (exps : list Node) : D (list Node) :=
  match n with
  | O => shallow out_of_fuel
  | S n' =>
      go <~ cond ;;
      if go then
        exps' <~ body exps ;;
        while_d cond body n' exps'
      else ret_d exps
  end.

Fixpoint regex_d (frames : nat) : D Node :=
  match frames with
  | O => recursion_error
  | S frames =>
      term1 <~ term_d frames ;;
      toks <~ shallow get_tokens ;;
      b <~ (if truthy toks then accept_d "|" frames else ret_d false) ;;
      if b then
        term2 <~ term_d frames ;;
        init (Or term1 term2) frames
      else ret_d term1
  end

with term_d (frames : nat) : D Node :=
  match frames with
  | O => recursion_error
  | S frames =>
      exps0 <~ init [] frames ;;
      exps <~ (fun p =>
                 while_d (term_continues_d frames)
                   (fun exps =>
                      next_factor <~ factor_d frames ;;
                      add exps next_factor frames)
                   (S (List.length (tokens p))) exps0 p) ;;
      (if negb (truthy exps) then error_d "Empty factor" frames
       else ret_d tt) ;;;
      ret_d (match exps with
             | [e] => e
             | _ => Str exps
             end)
  end

with factor_d (frames : nat) : D Node :=
  match frames with
  | O => recursion_error
  | S frames =>
      b <~ base_d frames ;;
      star <~ accept_d "*" frames ;;
      if star then init (ZeroOrMore b) frames else ret_d b
  end

with base_d (frames : nat) : D Node :=
  match frames with
  | O => recursion_error
  | S frames =>
      lp <~ accept_d "(" frames ;;
      if lp then
        r <~ regex_d frames ;;
        expect_d ")" frames ;;;
        ret_d r
      else
        dot <~ accept_d "." frames ;;
        if dot then init Any frames
        else
          star <~ accept_d "*" frames ;;
          if star then
            error_d "Unexpected symbol: *" frames ;;;
            ret_d NodeObj
          else
            c <~ peek_d frames ;;
            normal <~ init (Normal c) frames ;;
            next_token_d frames ;;;
            ret_d normal
  end.

Definition parse_d (frames : nat) : D (option Node) :=
  call (fun frames =>
    r <~ regex_d frames ;;
    toks <~ shallow get_tokens ;;
    (if truthy toks
     then c <~ peek_d frames ;; error_d (unexpected_symbol c) frames
     else ret_d tt) ;;;
    f <~ shallow get_failure ;;
    ret_d (if negb f then Some r else None)) frames.

(** [Parser(inp).parse()] with [frames] frames available at the call. *)
Definition run_parse_d (frames : nat) (inp : string) : Deep (option Node) :=
  parse_d frames (new_Parser inp).

(** Three hundred nested groups around one literal. *)
Definition deep_input : string :=
  (String.concat "" (repeat "(" 300) ++ "a" ++
   String.concat "" (repeat ")" 300))%string.

(** The number of opening parentheses among the tokens. *)
Definition opens (toks : list ascii) : nat := count_occ ascii_dec toks "("%char.

(** What the frame-counting computation returns, the unbounded one returns
    too; for the rules, with enough fuel. *)
Definition sim {A} (d : D A) (m : M A) : Prop :=
  forall p a p', d p = Within (Ret a p') -> m p = Ret a p'.

Definition sim_fuel {A} (d : D A) (mf : nat -> M A) : Prop :=
  forall p a p', d p = Within (Ret a p') -> exists fuel, mf fuel p = Ret a p'.

(** With more frames a computation that did not raise [RecursionError]
    behaves the same. *)
Definition more_d {A} (m m' : D A) : Prop :=
  forall p, m p <> RecursionError -> m' p = m p.

(** A result that is a return, or else a [RecursionError] for which fewer
    than [need] frames were available. *)
Definition fine {A} (need frames : nat) (r : Deep A) : Prop :=
  (exists a p', r = Within (Ret a p')) \/
  (r = RecursionError /\ frames < need).

(** * Properties *)

(** ** Reasoning about the monad *)

Lemma bind_inv {A B} (m : M A) (k : A -> M B) p b p' :
  bind m k p = Ret b p' ->
  exists a p1, m p = Ret a p1 /\ k a p1 = Ret b p'.
Proof.
  unfold bind. destruct (m p) as [a p1| |]; try discriminate.
  intros H. exists a, p1. split; [reflexivity | exact H].
Qed.

Lemma bind_Ret {A B} (m : M A) (k : A -> M B) p a p1 :
  m p = Ret a p1 -> bind m k p = k a p1.
Proof. unfold bind. intros ->. reflexivity. Qed.

Lemma ret_inv {A} (a b : A) p p' : ret a p = Ret b p' -> a = b /\ p = p'.
Proof. unfold ret. intros H. injection H. auto. Qed.

(** Unfolding equations of the grammar rules. *)
Lemma regex_S fuel :
  regex (S fuel) =
  (term1 <- term fuel ;;
   toks <- get_tokens ;;
   b <- (if truthy toks then accept "|" else ret false) ;;
   if b then term2 <- term fuel ;; ret (Or term1 term2) else ret term1).
Proof. reflexivity. Qed.

Lemma term_S fuel :
  term (S fuel) =
  (exps <- term_loop fuel [] ;;
   (if negb (truthy exps) then error "Empty factor" else ret tt) ;;
   ret (match exps with [e] => e | _ => Str exps end)).
Proof. reflexivity. Qed.

Lemma term_loop_S fuel exps :
  term_loop (S fuel) exps =
  (go <- term_continues ;;
   if go then
     next_factor <- factor fuel ;; term_loop fuel (exps ++ [next_factor])
   else ret exps).
Proof. reflexivity. Qed.

Lemma factor_S fuel :
  factor (S fuel) =
  (b <- base fuel ;;
   star <- accept "*" ;;
   ret (if star then ZeroOrMore b else b)).
Proof. reflexivity. Qed.

Lemma base_S fuel :
  base (S fuel) =
  (lp <- accept "(" ;;
   if lp then r <- regex fuel ;; expect ")" ;; ret r
   else
     dot <- accept "." ;;
     if dot then ret Any
     else
       star <- accept "*" ;;
       if star then error "Unexpected symbol: *" ;; ret NodeObj
       else c <- peek ;; next_token ;; ret (Normal c)).
Proof. reflexivity. Qed.

(** ** What a method call may change *)

Lemma truthy_app {A} (l1 l2 : list A) :
  truthy (l1 ++ l2) = truthy l1 || truthy l2.
Proof. destruct l1; reflexivity. Qed.

Lemma step_refl p : step p p.
Proof.
  split; [reflexivity|]. exists [], []. simpl.
  rewrite app_nil_r, orb_false_r. auto.
Qed.

Lemma step_trans p1 p2 p3 : step p1 p2 -> step p2 p3 -> step p1 p3.
Proof.
  intros (Hi1 & c1 & m1 & Ht1 & Hs1 & Hf1) (Hi2 & c2 & m2 & Ht2 & Hs2 & Hf2).
  split; [congruence|].
  exists (c1 ++ c2), (m1 ++ m2). repeat split.
  - rewrite Ht1, Ht2, app_assoc. reflexivity.
  - rewrite Hs2, Hs1, app_assoc. reflexivity.
  - rewrite Hf2, Hf1, truthy_app, orb_assoc. reflexivity.
Qed.

Lemma step_sticky p p' : step p p' -> failure p = true -> failure p' = true.
Proof. intros (_ & c & m & _ & _ & Hf) H. rewrite Hf, H. reflexivity. Qed.

Lemma step_length p p' :
  step p p' -> List.length (tokens p') <= List.length (tokens p).
Proof.
  intros (_ & c & m & Ht & _). rewrite Ht, List.length_app. lia.
Qed.

Lemma step_clean p p' :
  step p p' -> failure p' = false -> failure p = false /\ stderr p' = stderr p.
Proof.
  intros (_ & c & m & _ & Hs & Hf) H. rewrite H in Hf.
  symmetry in Hf. apply orb_false_elim in Hf. destruct Hf as [Hp Hm].
  split; [exact Hp|]. destruct m; [|discriminate].
  rewrite Hs, app_nil_r. reflexivity.
Qed.

(** The five grammar rules are proved together, by induction on the fuel. *)
Ltac split5 := split; [|split; [|split; [|split]]].

Lemma preserves_ret {A} (a : A) : preserves (ret a).
Proof. intros p b p' H. apply ret_inv in H. destruct H as [_ <-]. apply step_refl. Qed.

Lemma preserves_bind {A B} (m : M A) (k : A -> M B) :
  preserves m -> (forall a, preserves (k a)) -> preserves (bind m k).
Proof.
  intros Hm Hk p b p' H. apply bind_inv in H. destruct H as (a & p1 & H1 & H2).
  eapply step_trans; [eapply Hm | eapply Hk]; eassumption.
Qed.

Lemma preserves_get_tokens : preserves get_tokens.
Proof. intros p a p' H. injection H as _ <-. apply step_refl. Qed.

Lemma preserves_get_failure : preserves get_failure.
Proof. intros p a p' H. injection H as _ <-. apply step_refl. Qed.

Lemma preserves_raise {A} : preserves (@raise_IndexError A).
Proof. intros p a p' H. discriminate. Qed.

Lemma preserves_out_of_fuel {A} : preserves (@out_of_fuel A).
Proof. intros p a p' H. discriminate. Qed.

Lemma preserves_next_token : preserves next_token.
Proof.
  intros p a p' H. inversion H; subst. split; [reflexivity|].
  exists (firstn 1 (tokens p)), []. simpl. repeat split.
  - destruct (tokens p); reflexivity.
  - rewrite app_nil_r. reflexivity.
  - rewrite orb_false_r. reflexivity.
Qed.

Lemma preserves_error message : preserves (error message).
Proof.
  intros p a p' H. inversion H; subst. split; [reflexivity|].
  exists [], [err_line (inp p) message]. simpl.
  rewrite orb_true_r. auto.
Qed.

Create HintDb preserves.

#[local] Hint Resolve preserves_get_tokens preserves_get_failure
  preserves_raise preserves_out_of_fuel preserves_next_token
  preserves_error : preserves.

Ltac preserves_tac :=
  repeat first
    [ assumption
    | apply preserves_ret
    | apply preserves_bind; [ | intros ? ]
    | match goal with
      | |- preserves (if ?b then _ else _) => destruct b
      | |- preserves (match ?l with [] => _ | _ :: _ => _ end) => destruct l
      end
    | solve [auto with preserves] ].

Lemma preserves_peek : preserves peek.
Proof. unfold peek. preserves_tac. Qed.

Lemma preserves_accept symbol : preserves (accept symbol).
Proof. unfold accept. preserves_tac. Qed.

#[local] Hint Resolve preserves_peek preserves_accept : preserves.

Lemma preserves_expect symbol : preserves (expect symbol).
Proof. unfold expect. preserves_tac. Qed.

Lemma preserves_term_continues : preserves term_continues.
Proof. unfold term_continues. preserves_tac. Qed.

#[local] Hint Resolve preserves_expect preserves_term_continues : preserves.

Lemma preserves_rules fuel :
  preserves (regex fuel) /\ preserves (term fuel) /\
  (forall exps, preserves (term_loop fuel exps)) /\
  preserves (factor fuel) /\ preserves (base fuel).
Proof.
  induction fuel as [|fuel (IHr & IHt & IHl & IHf & IHb)].
  - split5; [ | | intros exps | | ]; apply preserves_out_of_fuel.
  - split5; [ | | intros exps | | ].
    + rewrite regex_S. preserves_tac.
    + rewrite term_S. preserves_tac.
    + rewrite term_loop_S. preserves_tac.
    + rewrite factor_S. preserves_tac.
    + rewrite base_S. preserves_tac.
Qed.

Lemma preserves_regex fuel : preserves (regex fuel).
Proof. apply preserves_rules. Qed.

Lemma preserves_term fuel : preserves (term fuel).
Proof. apply preserves_rules. Qed.

Lemma preserves_term_loop fuel exps : preserves (term_loop fuel exps).
Proof. apply preserves_rules. Qed.

Lemma preserves_factor fuel : preserves (factor fuel).
Proof. apply preserves_rules. Qed.

Lemma preserves_base fuel : preserves (base fuel).
Proof. apply preserves_rules. Qed.

#[local] Hint Resolve preserves_regex preserves_term preserves_term_loop
  preserves_factor preserves_base : preserves.

Lemma preserves_parse fuel : preserves (parse fuel).
Proof. unfold parse. preserves_tac. Qed.

(** ** Inversion of the primitive operations *)

Lemma accept_inv symbol p b p' :
  accept symbol p = Ret b p' ->
  (b = true /\ exists rest, tokens p = symbol :: rest /\ p' = set_tokens p rest) \/
  (b = false /\ p' = p /\ hd_error (tokens p) <> Some symbol).
Proof.
  unfold accept, bind, get_tokens.
  destruct (tokens p) as [|c rest] eqn:Ht.
  - intros H. apply ret_inv in H. destruct H as [<- <-].
    right. repeat split. discriminate.
  - destruct (Ascii.eqb_spec c symbol) as [->|Hne].
    + unfold next_token, ret. rewrite Ht. simpl. intros H. injection H as <- <-.
      left. split; [reflexivity|]. exists rest. auto.
    + intros H. apply ret_inv in H. destruct H as [<- <-].
      right. repeat split. simpl. congruence.
Qed.

Lemma peek_inv p c p' :
  peek p = Ret c p' -> p' = p /\ exists rest, tokens p = c :: rest.
Proof.
  unfold peek, bind, get_tokens.
  destruct (tokens p) as [|c0 rest]; [discriminate|].
  intros H. apply ret_inv in H. destruct H as [<- <-]. eauto.
Qed.

Lemma term_continues_inv p go p' :
  term_continues p = Ret go p' ->
  p' = p /\
  (go = true ->
   exists c rest, tokens p = c :: rest /\ c <> ")"%char /\ c <> "|"%char) /\
  (go = false ->
   tokens p = [] \/ exists c rest,
       tokens p = c :: rest /\ (c = ")"%char \/ c = "|"%char)).
Proof.
  unfold term_continues. intros H.
  apply bind_inv in H. destruct H as (toks & p1 & H1 & H).
  injection H1 as <- <-.
  destruct (tokens p) as [|c rest] eqn:Ht; simpl in H.
  - apply ret_inv in H. destruct H as [<- <-].
    split; [reflexivity|]. split; [discriminate|]. auto.
  - apply bind_inv in H. destruct H as (c1 & p1 & H1 & H).
    apply peek_inv in H1. destruct H1 as (-> & rest1 & Ht1).
    rewrite Ht in Ht1. injection Ht1 as <- <-.
    destruct (Ascii.eqb_spec c ")") as [->|Hne1].
    + apply ret_inv in H. destruct H as [<- <-]. split; [reflexivity|].
      split; [discriminate|]. intros _. right. eauto.
    + apply bind_inv in H. destruct H as (c2 & p2 & H2 & H).
      apply peek_inv in H2. destruct H2 as (-> & rest2 & Ht2).
      rewrite Ht in Ht2. injection Ht2 as <- <-.
      apply ret_inv in H. destruct H as [<- <-]. split; [reflexivity|].
      destruct (Ascii.eqb_spec c "|") as [->|Hne2]; simpl.
      * split; [discriminate|]. intros _. right. eauto.
      * split; [|discriminate]. intros _. eauto.
Qed.

(** ** Fuel *)

Lemma more_refl {A} (m : M A) : more m m.
Proof. intros p _. reflexivity. Qed.

Lemma more_bind {A B} (m m' : M A) (k k' : A -> M B) :
  more m m' -> (forall a, more (k a) (k' a)) -> more (bind m k) (bind m' k').
Proof.
  intros Hm Hk p. unfold bind. intros H.
  rewrite (Hm p) by (intros E; rewrite E in H; apply H; reflexivity).
  destruct (m p) as [a p1| |]; try reflexivity.
  apply Hk. exact H.
Qed.

Lemma more_out_of_fuel {A} (m : M A) : more out_of_fuel m.
Proof. intros p H. exfalso. apply H. reflexivity. Qed.

Ltac more_tac :=
  repeat first
    [ assumption
    | apply more_refl
    | apply more_bind; [ | intros ? ]
    | match goal with
      | |- more (if ?b then _ else _) (if ?b then _ else _) => destruct b
      end
    | solve [auto] ].

Lemma more_rules fuel :
  forall fuel', fuel <= fuel' ->
  more (regex fuel) (regex fuel') /\ more (term fuel) (term fuel') /\
  (forall exps, more (term_loop fuel exps) (term_loop fuel' exps)) /\
  more (factor fuel) (factor fuel') /\ more (base fuel) (base fuel').
Proof.
  induction fuel as [|fuel IH]; intros fuel' Hle.
  - split5; [ | | intros exps | | ]; apply more_out_of_fuel.
  - destruct fuel' as [|fuel']; [lia|].
    destruct (IH fuel') as (IHr & IHt & IHl & IHf & IHb); [lia|].
    split5; [ | | intros exps | | ].
    + rewrite !regex_S. more_tac.
    + rewrite !term_S. more_tac.
    + rewrite !term_loop_S. more_tac.
    + rewrite !factor_S. more_tac.
    + rewrite !base_S. more_tac.
Qed.

Lemma more_parse fuel fuel' : fuel <= fuel' -> more (parse fuel) (parse fuel').
Proof.
  intros Hle. destruct (more_rules fuel fuel' Hle) as (Hr & _).
  unfold parse. more_tac.
Qed.

(** ** Consumption *)

Lemma base_consumes fuel p t p' :
  base fuel p = Ret t p' -> tokens p <> [] ->
  List.length (tokens p') < List.length (tokens p).
Proof.
  destruct fuel as [|fuel]; [discriminate|].
  rewrite base_S. intros H Hne.
  apply bind_inv in H. destruct H as (lp & p1 & H1 & H).
  apply accept_inv in H1.
  destruct H1 as [(-> & rest & Ht & ->)|(-> & -> & _)].
  { assert (Hs : step (set_tokens p rest) p').
    { revert H. generalize (set_tokens p rest). intros q H.
      assert (Hp : preserves (r <- regex fuel ;; expect ")" ;; ret r))
        by preserves_tac.
      exact (Hp _ _ _ H). }
    apply step_length in Hs. rewrite Ht. simpl in *. lia. }
  apply bind_inv in H. destruct H as (dot & p1 & H1 & H).
  apply accept_inv in H1.
  destruct H1 as [(-> & rest & Ht & ->)|(-> & -> & _)].
  { apply ret_inv in H. destruct H as [_ <-]. rewrite Ht. simpl. lia. }
  apply bind_inv in H. destruct H as (star & p1 & H1 & H).
  apply accept_inv in H1.
  destruct H1 as [(-> & rest & Ht & ->)|(-> & -> & _)].
  { apply bind_inv in H. destruct H as ([] & p1 & H1 & H).
    apply ret_inv in H. destruct H as [_ <-].
    inversion H1; subst. rewrite Ht. simpl. lia. }
  apply bind_inv in H. destruct H as (c & p1 & H1 & H).
  apply peek_inv in H1. destruct H1 as (-> & rest & Ht).
  apply bind_inv in H. destruct H as ([] & p1 & H1 & H).
  apply ret_inv in H. destruct H as [_ <-].
  inversion H1; subst. rewrite Ht. simpl. lia.
Qed.

Lemma factor_consumes fuel p t p' :
  factor fuel p = Ret t p' -> tokens p <> [] ->
  List.length (tokens p') < List.length (tokens p).
Proof.
  destruct fuel as [|fuel]; [discriminate|].
  rewrite factor_S. intros H Hne.
  apply bind_inv in H. destruct H as (b & p1 & H1 & H).
  apply base_consumes in H1; [|exact Hne].
  apply bind_inv in H. destruct H as (star & p2 & H2 & H).
  apply preserves_accept, step_length in H2.
  apply ret_inv in H. destruct H as [_ <-]. lia.
Qed.

(** ** Termination without exception *)

Lemma returns_ret {A} (a : A) p : returns (ret a) p.
Proof. exists a, p. reflexivity. Qed.

Lemma returns_bind {A B} (m : M A) (k : A -> M B) p :
  returns m p ->
  (forall a p1, m p = Ret a p1 -> returns (k a) p1) ->
  returns (bind m k) p.
Proof.
  intros (a & p1 & Hm) Hk. unfold returns.
  rewrite (bind_Ret _ _ _ _ _ Hm). apply (Hk _ _ Hm).
Qed.

Lemma returns_get_tokens p : returns get_tokens p.
Proof. eexists _, _. reflexivity. Qed.

Lemma returns_error message p : returns (error message) p.
Proof. eexists _, _. reflexivity. Qed.

Lemma returns_next_token p : returns next_token p.
Proof. eexists _, _. reflexivity. Qed.

Lemma returns_peek p : tokens p <> [] -> returns peek p.
Proof.
  intros Hne. unfold peek, returns, bind, get_tokens.
  destruct (tokens p) as [|c rest]; [contradiction|]. eexists _, _. reflexivity.
Qed.

Lemma returns_accept symbol p : returns (accept symbol) p.
Proof.
  unfold accept, returns, bind, get_tokens.
  destruct (tokens p) as [|c rest]; [eexists _, _; reflexivity|].
  destruct (Ascii.eqb c symbol); eexists _, _; reflexivity.
Qed.

Lemma get_tokens_inv p toks p' :
  get_tokens p = Ret toks p' -> toks = tokens p /\ p' = p.
Proof. intros H. injection H as <- <-. auto. Qed.

Lemma truthy_nonempty {A} (l : list A) : truthy l = true -> l <> [].
Proof. destruct l; [discriminate|]. intros _. discriminate. Qed.

Lemma returns_expect symbol p : returns (expect symbol) p.
Proof.
  unfold expect. apply returns_bind; [apply returns_accept|].
  intros [] p1 _; [apply returns_ret|].
  apply returns_bind; [apply returns_get_tokens|].
  intros toks p2 H. apply get_tokens_inv in H. destruct H as [-> ->].
  apply returns_bind; [|intros; apply returns_ret].
  destruct (truthy (tokens p1)) eqn:Ht; [|apply returns_error].
  apply returns_bind; [apply returns_peek, truthy_nonempty, Ht|].
  intros; apply returns_error.
Qed.

Lemma returns_term_continues p : returns term_continues p.
Proof.
  unfold term_continues. apply returns_bind; [apply returns_get_tokens|].
  intros toks p1 H. apply get_tokens_inv in H. destruct H as [-> ->].
  destruct (truthy (tokens p)) eqn:Ht; [|apply returns_ret].
  apply truthy_nonempty in Ht.
  apply returns_bind; [apply returns_peek, Ht|].
  intros c p1 H. apply peek_inv in H. destruct H as [-> _].
  destruct (Ascii.eqb c ")"); [apply returns_ret|].
  apply returns_bind; [apply returns_peek, Ht|].
  intros; apply returns_ret.
Qed.

(** With five units of fuel per remaining token (and up to three more for
    the outermost calls) every rule returns.  [factor] and [base] are only
    ever entered with a token left. *)
Lemma total_rules fuel :
  (forall p, 5 * List.length (tokens p) + 3 <= fuel -> returns (regex fuel) p) /\
  (forall p, 5 * List.length (tokens p) + 2 <= fuel -> returns (term fuel) p) /\
  (forall exps p,
      5 * List.length (tokens p) + 1 <= fuel ->
      returns (term_loop fuel exps) p) /\
  (forall p, tokens p <> [] -> 5 * List.length (tokens p) <= fuel ->
             returns (factor fuel) p) /\
  (forall p, tokens p <> [] -> 5 * List.length (tokens p) <= fuel + 1 ->
             returns (base fuel) p).
Proof.
  induction fuel as [|fuel (IHr & IHt & IHl & IHf & IHb)].
  - split5; intros; try lia.
    + destruct (tokens p); [contradiction|simpl in *; lia].
    + destruct (tokens p); [contradiction|simpl in *; lia].
  - split5.
    + intros p Hf. rewrite regex_S.
      apply returns_bind; [apply IHt; lia|].
      intros t1 p1 H1. apply preserves_term, step_length in H1.
      apply returns_bind; [apply returns_get_tokens|].
      intros toks p2 H. apply get_tokens_inv in H. destruct H as [-> ->].
      apply returns_bind.
      { destruct (truthy (tokens p1)); [apply returns_accept|apply returns_ret]. }
      intros b p2 H2.
      assert (Hs : step p1 p2).
      { destruct (truthy (tokens p1)).
        - exact (preserves_accept _ _ _ _ H2).
        - exact (preserves_ret _ _ _ _ H2). }
      apply step_length in Hs.
      destruct b; [|apply returns_ret].
      apply returns_bind; [apply IHt; lia|]. intros; apply returns_ret.
    + intros p Hf. rewrite term_S.
      apply returns_bind; [apply IHl; lia|].
      intros exps p1 _.
      apply returns_bind; [|intros; apply returns_ret].
      destruct (negb (truthy exps)); [apply returns_error|apply returns_ret].
    + intros exps p Hf. rewrite term_loop_S.
      apply returns_bind; [apply returns_term_continues|].
      intros go p1 H. apply term_continues_inv in H.
      destruct H as (-> & Hgo & _).
      destruct go; [|apply returns_ret].
      destruct Hgo as (c & rest & Ht & _); [reflexivity|].
      assert (Hne : tokens p <> []) by (rewrite Ht; discriminate).
      apply returns_bind; [apply IHf; [exact Hne|lia]|].
      intros nf p2 H2. apply factor_consumes in H2; [|exact Hne].
      apply IHl. lia.
    + intros p Hne Hf. rewrite factor_S.
      apply returns_bind; [apply IHb; [exact Hne|lia]|].
      intros b p1 _.
      apply returns_bind; [apply returns_accept|]. intros; apply returns_ret.
    + intros p Hne Hf. rewrite base_S.
      apply returns_bind; [apply returns_accept|].
      intros lp p1 H1. apply accept_inv in H1.
      destruct H1 as [(-> & rest & Ht & ->)|(-> & -> & _)].
      { apply returns_bind.
        - apply IHr. simpl. rewrite Ht in Hf. simpl in Hf. lia.
        - intros r p1 _. apply returns_bind; [apply returns_expect|].
          intros; apply returns_ret. }
      apply returns_bind; [apply returns_accept|].
      intros dot p1 H1. apply accept_inv in H1.
      destruct H1 as [(-> & rest & Ht & ->)|(-> & -> & _)];
        [apply returns_ret|].
      apply returns_bind; [apply returns_accept|].
      intros star p1 H1. apply accept_inv in H1.
      destruct H1 as [(-> & rest & Ht & ->)|(-> & -> & _)].
      { apply returns_bind; [apply returns_error|]. intros; apply returns_ret. }
      apply returns_bind; [apply returns_peek, Hne|].
      intros c p1 H1. apply peek_inv in H1. destruct H1 as [-> _].
      apply returns_bind; [apply returns_next_token|]. intros; apply returns_ret.
Qed.

Lemma length_list_ascii_of_string s :
  List.length (list_ascii_of_string s) = String.length s.
Proof. induction s as [|c s IH]; simpl; congruence. Qed.

Lemma returns_parse fuel p :
  5 * List.length (tokens p) + 3 <= fuel -> returns (parse fuel) p.
Proof.
  intros Hf. unfold parse.
  apply returns_bind; [apply total_rules, Hf|].
  intros r p1 _.
  apply returns_bind; [apply returns_get_tokens|].
  intros toks p2 H. apply get_tokens_inv in H. destruct H as [-> ->].
  apply returns_bind.
  { destruct (truthy (tokens p1)) eqn:Ht; [|apply returns_ret].
    apply returns_bind; [apply returns_peek, truthy_nonempty, Ht|].
    intros; apply returns_error. }
  intros _ p2 _. apply returns_bind; [eexists _, _; reflexivity|].
  intros; apply returns_ret.
Qed.

Lemma returns_run_parse inp : exists r p', run_parse inp = Ret r p'.
Proof.
  apply returns_parse. unfold fuel_for, new_Parser. simpl.
  rewrite length_list_ascii_of_string. lia.
Qed.

(** ** Shape of the trees built without error *)

Lemma clean_before {A} (m : M A) p a p' :
  preserves m -> m p = Ret a p' -> failure p' = false -> failure p = false.
Proof. intros Hm H Hf. exact (proj1 (step_clean _ _ (Hm _ _ _ H) Hf)). Qed.

Lemma error_inv message p u p' :
  error message p = Ret u p' -> failure p' = true.
Proof. intros H. inversion H; subst. reflexivity. Qed.

Lemma forallb_snoc {A} (f : A -> bool) l x :
  forallb f l = true -> f x = true -> forallb f (l ++ [x]) = true.
Proof.
  intros Hl Hx. rewrite forallb_app, Hl. simpl. rewrite Hx. reflexivity.
Qed.

Lemma well_formed_rules fuel :
  (forall p t p',
      regex fuel p = Ret t p' -> failure p' = false -> well_formed t = true) /\
  (forall p t p',
      term fuel p = Ret t p' -> failure p' = false -> well_formed t = true) /\
  (forall exps p exps' p',
      term_loop fuel exps p = Ret exps' p' -> failure p' = false ->
      forallb well_formed exps = true -> forallb well_formed exps' = true) /\
  (forall p t p',
      factor fuel p = Ret t p' -> failure p' = false -> well_formed t = true) /\
  (forall p t p',
      base fuel p = Ret t p' -> failure p' = false -> well_formed t = true).
Proof.
  induction fuel as [|fuel (IHr & IHt & IHl & IHf & IHb)].
  - split5; intros; discriminate.
  - split5.
    + intros p t p' H Hc. rewrite regex_S in H.
      apply bind_inv in H. destruct H as (t1 & p1 & H1 & H).
      apply bind_inv in H. destruct H as (toks & p2 & H2 & H).
      apply get_tokens_inv in H2. destruct H2 as [-> ->].
      apply bind_inv in H. destruct H as (b & p2 & H2 & H).
      assert (Hs : step p1 p2).
      { destruct (truthy (tokens p1)).
        - exact (preserves_accept _ _ _ _ H2).
        - exact (preserves_ret _ _ _ _ H2). }
      destruct b.
      * apply bind_inv in H. destruct H as (t2 & p3 & H3 & H).
        apply ret_inv in H. destruct H as [<- <-]. simpl.
        rewrite (IHt _ _ _ H3 Hc).
        apply (clean_before _ _ _ _ (preserves_term fuel) H3) in Hc.
        apply (step_clean _ _ Hs) in Hc. destruct Hc as [Hc _].
        rewrite (IHt _ _ _ H1 Hc). reflexivity.
      * apply ret_inv in H. destruct H as [<- <-].
        apply (step_clean _ _ Hs) in Hc. destruct Hc as [Hc _].
        exact (IHt _ _ _ H1 Hc).
    + intros p t p' H Hc. rewrite term_S in H.
      apply bind_inv in H. destruct H as (exps & p1 & H1 & H).
      apply bind_inv in H. destruct H as (u & p2 & H2 & H).
      apply ret_inv in H. destruct H as [<- <-].
      destruct exps as [|e1 exps]; simpl in H2.
      { apply error_inv in H2. congruence. }
      apply ret_inv in H2. destruct H2 as [_ <-].
      pose proof (IHl _ _ _ _ H1 Hc eq_refl) as Hall.
      destruct exps as [|e2 exps].
      * simpl in Hall. rewrite andb_true_r in Hall. exact Hall.
      * change (well_formed (Str (e1 :: e2 :: exps)))
          with (forallb well_formed (e1 :: e2 :: exps)).
        exact Hall.
    + intros exps p exps' p' H Hc Hall. rewrite term_loop_S in H.
      apply bind_inv in H. destruct H as (go & p1 & H1 & H).
      apply term_continues_inv in H1. destruct H1 as (-> & _).
      destruct go.
      * apply bind_inv in H. destruct H as (nf & p2 & H2 & H).
        apply (IHl _ _ _ _ H Hc). apply forallb_snoc; [exact Hall|].
        apply (IHf _ _ _ H2).
        exact (clean_before _ _ _ _ (preserves_term_loop fuel _) H Hc).
      * apply ret_inv in H. destruct H as [<- <-]. exact Hall.
    + intros p t p' H Hc. rewrite factor_S in H.
      apply bind_inv in H. destruct H as (b & p1 & H1 & H).
      apply bind_inv in H. destruct H as (star & p2 & H2 & H).
      apply ret_inv in H. destruct H as [<- <-].
      apply (clean_before _ _ _ _ (preserves_accept _) H2) in Hc.
      pose proof (IHb _ _ _ H1 Hc) as Hb. destruct star; exact Hb.
    + intros p t p' H Hc. rewrite base_S in H.
      apply bind_inv in H. destruct H as (lp & p1 & H1 & H).
      destruct lp.
      { apply bind_inv in H. destruct H as (r & p2 & H2 & H).
        apply bind_inv in H. destruct H as (u & p3 & H3 & H).
        apply ret_inv in H. destruct H as [<- <-].
        apply (clean_before _ _ _ _ (preserves_expect _) H3) in Hc.
        exact (IHr _ _ _ H2 Hc). }
      apply bind_inv in H. destruct H as (dot & p2 & H2 & H).
      destruct dot.
      { apply ret_inv in H. destruct H as [<- <-]. reflexivity. }
      apply bind_inv in H. destruct H as (star & p3 & H3 & H).
      destruct star.
      { apply bind_inv in H. destruct H as (u & p4 & H4 & H).
        apply ret_inv in H. destruct H as [<- <-].
        apply error_inv in H4. congruence. }
      apply bind_inv in H. destruct H as (c & p4 & H4 & H).
      apply bind_inv in H. destruct H as (u & p5 & H5 & H).
      apply ret_inv in H. destruct H as [<- <-]. reflexivity.
Qed.

(** ** Forward evaluation of the primitive operations *)

Lemma accept_hit p symbol rest :
  tokens p = symbol :: rest -> accept symbol p = Ret true (set_tokens p rest).
Proof.
  intros Ht. unfold accept, bind, get_tokens. rewrite Ht, Ascii.eqb_refl.
  unfold next_token. rewrite Ht. reflexivity.
Qed.

Lemma accept_miss p symbol :
  hd_error (tokens p) <> Some symbol -> accept symbol p = Ret false p.
Proof.
  intros Hne. unfold accept, bind, get_tokens.
  destruct (tokens p) as [|c rest]; [reflexivity|].
  destruct (Ascii.eqb_spec c symbol) as [->|_]; [|reflexivity].
  exfalso. apply Hne. reflexivity.
Qed.

Lemma peek_cons p c rest : tokens p = c :: rest -> peek p = Ret c p.
Proof. intros Ht. unfold peek, bind, get_tokens. rewrite Ht. reflexivity. Qed.

Lemma expect_hit p symbol rest :
  tokens p = symbol :: rest ->
  expect symbol p = Ret (Some true) (set_tokens p rest).
Proof.
  intros Ht. unfold expect. rewrite (bind_Ret _ _ _ _ _ (accept_hit _ _ _ Ht)).
  reflexivity.
Qed.

Lemma term_continues_true p c rest :
  tokens p = c :: rest -> c <> ")"%char -> c <> "|"%char ->
  term_continues p = Ret true p.
Proof.
  intros Ht H1 H2. unfold term_continues, peek, bind, get_tokens.
  rewrite Ht. simpl. rewrite Ht. unfold ret.
  destruct (Ascii.eqb_spec c ")"); [contradiction|]. rewrite Ht.
  destruct (Ascii.eqb_spec c "|"); [contradiction|]. reflexivity.
Qed.

Lemma term_continues_false p :
  ends_term (tokens p) -> term_continues p = Ret false p.
Proof.
  intros H. unfold term_continues, peek, bind, get_tokens.
  destruct H as [Ht|(c & rest & Ht & Hc)]; rewrite Ht; [reflexivity|].
  simpl. rewrite Ht. unfold ret.
  destruct Hc as [-> | ->]; simpl; [reflexivity|]. rewrite Ht. reflexivity.
Qed.

(** [regex] in terms of [term]: one term, and one more after a bar. *)
Lemma regex_unfold fuel p :
  regex (S fuel) p =
  match term fuel p with
  | Ret term1 p1 =>
      match tokens p1 with
      | c :: rest =>
          if Ascii.eqb c "|" then
            match term fuel (set_tokens p1 rest) with
            | Ret term2 p2 => Ret (Or term1 term2) p2
            | IndexError => IndexError
            | OutOfFuel => OutOfFuel
            end
          else Ret term1 p1
      | [] => Ret term1 p1
      end
  | IndexError => IndexError
  | OutOfFuel => OutOfFuel
  end.
Proof.
  rewrite regex_S. unfold bind at 1.
  destruct (term fuel p) as [term1 p1| |]; try reflexivity.
  unfold bind at 1. unfold get_tokens at 1. unfold bind at 1.
  destruct (tokens p1) as [|c rest] eqn:Ht; simpl; [reflexivity|].
  unfold accept, bind, get_tokens. rewrite Ht.
  destruct (Ascii.eqb c "|"); [|reflexivity].
  unfold next_token, ret. rewrite Ht. reflexivity.
Qed.

(** ** The parser accepts what the grammar derives *)

Lemma regex_fuel n fuel p t p' :
  regex n p = Ret t p' -> n <= fuel -> regex fuel p = Ret t p'.
Proof.
  intros H Hle. destruct (more_rules n fuel Hle) as (Hm & _).
  rewrite (Hm p); [exact H|]. rewrite H. discriminate.
Qed.

Lemma term_fuel n fuel p t p' :
  term n p = Ret t p' -> n <= fuel -> term fuel p = Ret t p'.
Proof.
  intros H Hle. destruct (more_rules n fuel Hle) as (_ & Hm & _).
  rewrite (Hm p); [exact H|]. rewrite H. discriminate.
Qed.

Lemma term_loop_fuel n fuel exps p exps' p' :
  term_loop n exps p = Ret exps' p' -> n <= fuel ->
  term_loop fuel exps p = Ret exps' p'.
Proof.
  intros H Hle. destruct (more_rules n fuel Hle) as (_ & _ & Hm & _).
  rewrite (Hm exps p); [exact H|]. rewrite H. discriminate.
Qed.

Lemma factor_fuel n fuel p t p' :
  factor n p = Ret t p' -> n <= fuel -> factor fuel p = Ret t p'.
Proof.
  intros H Hle. destruct (more_rules n fuel Hle) as (_ & _ & _ & Hm & _).
  rewrite (Hm p); [exact H|]. rewrite H. discriminate.
Qed.

Lemma literal_not_reserved c :
  is_literal c = true ->
  c <> "("%char /\ c <> ")"%char /\ c <> "|"%char /\ c <> "*"%char /\
  c <> "."%char.
Proof.
  intros H. repeat split; intros ->; discriminate H.
Qed.

Lemma spec_base_starts s t : spec_base s t -> starts_base s.
Proof.
  intros H. inversion H; subst.
  - apply literal_not_reserved in H0. exists c, []. intuition.
  - exists "."%char, []. repeat split; discriminate.
  - exists "("%char, (s0 ++ [")"%char]). repeat split; discriminate.
Qed.

Lemma starts_base_app s s' : starts_base s -> starts_base (s ++ s').
Proof.
  intros (c & r & -> & H). exists c, (r ++ s'). split; [reflexivity|exact H].
Qed.

Lemma spec_factor_starts s t : spec_factor s t -> starts_base s.
Proof.
  intros H. inversion H; subst.
  - eapply spec_base_starts; eassumption.
  - apply starts_base_app. eapply spec_base_starts; eassumption.
Qed.

Lemma spec_factors_starts s ts : spec_factors s ts -> starts_base s.
Proof.
  intros H. inversion H; subst.
  - eapply spec_factor_starts; eassumption.
  - apply starts_base_app. eapply spec_factor_starts; eassumption.
Qed.

Lemma spec_factors_nonempty s ts : spec_factors s ts -> ts <> [].
Proof. intros H. inversion H; discriminate. Qed.

Lemma ends_term_no_star rest : ends_term rest -> hd_error rest <> Some "*"%char.
Proof.
  intros [->|(c & r & -> & [->| ->])]; simpl; discriminate.
Qed.

Lemma starts_base_no_star s rest :
  starts_base s -> hd_error (s ++ rest) <> Some "*"%char.
Proof.
  intros (c & r & -> & _ & _ & Hc). simpl. congruence.
Qed.

Lemma ends_regex_term toks : ends_regex toks -> ends_term toks.
Proof.
  intros [->|(r & ->)]; [left; reflexivity|]. right. eauto.
Qed.

Lemma set_tokens_twice p t1 t2 :
  set_tokens (set_tokens p t1) t2 = set_tokens p t2.
Proof. reflexivity. Qed.

Lemma grammar_accepted :
  (forall s t, spec_regex s t ->
     forall p rest, tokens p = s ++ rest -> ends_regex rest ->
       exists n, regex n p = Ret t (set_tokens p rest)) /\
  (forall s t, spec_term s t ->
     forall p rest, tokens p = s ++ rest -> ends_term rest ->
       exists n, term n p = Ret t (set_tokens p rest)) /\
  (forall s ts, spec_factors s ts ->
     forall p rest exps, tokens p = s ++ rest -> ends_term rest ->
       exists n, term_loop n exps p = Ret (exps ++ ts) (set_tokens p rest)) /\
  (forall s t, spec_factor s t ->
     forall p rest, tokens p = s ++ rest -> hd_error rest <> Some "*"%char ->
       exists n, factor n p = Ret t (set_tokens p rest)) /\
  (forall s t, spec_base s t ->
     forall p rest, tokens p = s ++ rest ->
       exists n, base n p = Ret t (set_tokens p rest)).
Proof.
  apply spec_grammar_ind.
  - (* one term *)
    intros s t _ IH p rest Ht Hrest.
    destruct (IH p rest Ht (ends_regex_term _ Hrest)) as [n Hn].
    exists (S n). rewrite regex_unfold, Hn. simpl.
    destruct Hrest as [->|(r & ->)]; reflexivity.
  - (* two terms around a bar *)
    intros s1 t1 s2 t2 _ IH1 _ IH2 p rest Ht Hrest.
    rewrite <- app_assoc in Ht. simpl in Ht.
    destruct (IH1 p ("|"%char :: s2 ++ rest) Ht) as [n1 H1].
    { right. eauto. }
    destruct (IH2 (set_tokens p (s2 ++ rest)) rest eq_refl
                  (ends_regex_term _ Hrest)) as [n2 H2].
    exists (S (Nat.max n1 n2)). rewrite regex_unfold.
    rewrite (term_fuel _ (Nat.max n1 n2) _ _ _ H1) by lia. simpl.
    rewrite set_tokens_twice.
    rewrite (term_fuel _ (Nat.max n1 n2) _ _ _ H2) by lia. reflexivity.
  - (* a term *)
    intros s ts Hfs IH p rest Ht Hrest.
    destruct (IH p rest [] Ht Hrest) as [n Hn]. simpl in Hn.
    exists (S n). rewrite term_S, (bind_Ret _ _ _ _ _ Hn).
    apply spec_factors_nonempty in Hfs.
    destruct ts as [|e ts]; [contradiction|]. reflexivity.
  - (* the last factor *)
    intros s t Hf IH p rest exps Ht Hrest.
    destruct (spec_factor_starts _ _ Hf) as (c & s' & -> & Hc1 & Hc2 & _).
    destruct (IH p rest Ht (ends_term_no_star _ Hrest)) as [n Hn].
    exists (S (S n)). rewrite term_loop_S.
    rewrite (bind_Ret _ _ _ _ _ (term_continues_true _ _ _ Ht Hc1 Hc2)).
    rewrite (bind_Ret _ _ _ _ _ (factor_fuel _ (S n) _ _ _ Hn (Nat.le_succ_diag_r n))).
    rewrite term_loop_S.
    rewrite (bind_Ret _ _ _ _ _ (term_continues_false (set_tokens p rest) Hrest)).
    reflexivity.
  - (* a factor and more *)
    intros s1 t s2 ts Hf IH1 Hfs IH2 p rest exps Ht Hrest.
    rewrite <- app_assoc in Ht.
    destruct (spec_factor_starts _ _ Hf) as (c & s' & -> & Hc1 & Hc2 & _).
    destruct (IH1 p (s2 ++ rest) Ht) as [n1 H1].
    { apply starts_base_no_star. eapply spec_factors_starts; eassumption. }
    destruct (IH2 (set_tokens p (s2 ++ rest)) rest (exps ++ [t]) eq_refl Hrest)
      as [n2 H2].
    exists (S (Nat.max n1 n2)). rewrite term_loop_S.
    rewrite (bind_Ret _ _ _ _ _ (term_continues_true _ _ _ Ht Hc1 Hc2)).
    rewrite (bind_Ret _ _ _ _ _ (factor_fuel _ (Nat.max n1 n2) _ _ _ H1 (Nat.le_max_l _ _))).
    rewrite (term_loop_fuel _ (Nat.max n1 n2) _ _ _ _ H2 (Nat.le_max_r _ _)).
    rewrite <- app_assoc. reflexivity.
  - (* a base without star *)
    intros s t _ IH p rest Ht Hrest.
    destruct (IH p rest Ht) as [n Hn].
    exists (S n). rewrite factor_S, (bind_Ret _ _ _ _ _ Hn).
    rewrite (bind_Ret _ _ _ _ _ (accept_miss (set_tokens p rest) "*" Hrest)).
    reflexivity.
  - (* a base and a star *)
    intros s t _ IH p rest Ht Hrest.
    rewrite <- app_assoc in Ht. simpl in Ht.
    destruct (IH p ("*"%char :: rest) Ht) as [n Hn].
    exists (S n). rewrite factor_S, (bind_Ret _ _ _ _ _ Hn).
    rewrite (bind_Ret _ _ _ _ _
               (accept_hit (set_tokens p ("*"%char :: rest)) "*" rest eq_refl)).
    reflexivity.
  - (* a literal *)
    intros c Hc p rest Ht. simpl in Ht.
    apply literal_not_reserved in Hc. destruct Hc as (H1 & _ & _ & H4 & H5).
    exists 1. rewrite base_S.
    rewrite (bind_Ret _ _ _ _ _ (accept_miss p "(" ltac:(rewrite Ht; simpl; congruence))).
    rewrite (bind_Ret _ _ _ _ _ (accept_miss p "." ltac:(rewrite Ht; simpl; congruence))).
    rewrite (bind_Ret _ _ _ _ _ (accept_miss p "*" ltac:(rewrite Ht; simpl; congruence))).
    rewrite (bind_Ret _ _ _ _ _ (peek_cons _ _ _ Ht)).
    unfold bind, next_token, ret. rewrite Ht. reflexivity.
  - (* the dot *)
    intros p rest Ht. simpl in Ht. exists 1. rewrite base_S.
    rewrite (bind_Ret _ _ _ _ _ (accept_miss p "(" ltac:(rewrite Ht; simpl; congruence))).
    rewrite (bind_Ret _ _ _ _ _ (accept_hit p "." rest Ht)).
    reflexivity.
  - (* a group *)
    intros s t _ IH p rest Ht. simpl in Ht. rewrite <- app_assoc in Ht.
    simpl in Ht.
    destruct (IH (set_tokens p (s ++ ")"%char :: rest)) (")"%char :: rest) eq_refl)
      as [n Hn].
    { right. eauto. }
    exists (S n). rewrite base_S.
    rewrite (bind_Ret _ _ _ _ _ (accept_hit p "(" _ Ht)).
    rewrite (bind_Ret _ _ _ _ _ Hn).
    rewrite (bind_Ret _ _ _ _ _
               (expect_hit (set_tokens p (")"%char :: rest)) ")" rest eq_refl)).
    reflexivity.
Qed.

Lemma parse_accepts inp t :
  spec_regex (list_ascii_of_string inp) t ->
  run_parse inp = Ret (Some t) (mkParser inp [] false []).
Proof.
  intros Hg.
  destruct (proj1 grammar_accepted _ _ Hg (new_Parser inp) []) as [n Hn].
  { simpl. rewrite app_nil_r. reflexivity. }
  { left. reflexivity. }
  assert (Hp : parse n (new_Parser inp) = Ret (Some t) (mkParser inp [] false [])).
  { unfold parse. rewrite (bind_Ret _ _ _ _ _ Hn). reflexivity. }
  destruct (returns_run_parse inp) as (r & p' & Hrun). unfold run_parse in *.
  pose proof (more_parse _ _ (Nat.le_max_l n (fuel_for inp)) (new_Parser inp)) as H1.
  pose proof (more_parse _ _ (Nat.le_max_r n (fuel_for inp)) (new_Parser inp)) as H2.
  rewrite Hp in H1. rewrite Hrun in H2. rewrite Hrun.
  rewrite <- H2 by discriminate. apply H1. discriminate.
Qed.

(** ** The trees of the grammar *)

Lemma grammar_shape_collapse ts :
  ts <> [] -> forallb grammar_shape ts = true ->
  grammar_shape (collapse ts) = true.
Proof.
  intros Hne Hall. destruct ts as [|e1 [|e2 ts]]; [contradiction| |].
  - simpl in *. rewrite andb_true_r in Hall. exact Hall.
  - exact Hall.
Qed.

Lemma spec_grammar_shape :
  (forall s t, spec_regex s t -> grammar_shape t = true) /\
  (forall s t, spec_term s t -> grammar_shape t = true) /\
  (forall s ts, spec_factors s ts -> forallb grammar_shape ts = true) /\
  (forall s t, spec_factor s t -> grammar_shape t = true) /\
  (forall s t, spec_base s t -> grammar_shape t = true).
Proof.
  apply spec_grammar_ind; simpl; intros;
    repeat match goal with
           | H : _ = true |- _ => rewrite H
           end; try reflexivity; try assumption.
  apply grammar_shape_collapse; [|assumption].
  eapply spec_factors_nonempty; eassumption.
Qed.

(** ** Display forms that the grammar derives *)

Lemma list_ascii_of_string_app s1 s2 :
  list_ascii_of_string (s1 ++ s2) =
  list_ascii_of_string s1 ++ list_ascii_of_string s2.
Proof. induction s1 as [|c s1 IH]; simpl; [reflexivity|]. rewrite IH. reflexivity. Qed.

Lemma list_ascii_of_concat (l : list string) :
  list_ascii_of_string (String.concat "" l) =
  List.concat (map list_ascii_of_string l).
Proof.
  induction l as [|x l IH]; [reflexivity|].
  destruct l as [|y l].
  - simpl. rewrite app_nil_r. reflexivity.
  - change (String.concat "" (x :: y :: l))
      with (x ++ "" ++ String.concat "" (y :: l))%string.
    rewrite !list_ascii_of_string_app, IH. reflexivity.
Qed.

Lemma to_chars_ZeroOrMore e :
  to_chars (ZeroOrMore e) = to_chars e ++ ["*"%char].
Proof. unfold to_chars. simpl. apply list_ascii_of_string_app. Qed.

Lemma to_chars_Or e1 e2 :
  to_chars (Or e1 e2) = to_chars e1 ++ "|"%char :: to_chars e2.
Proof. unfold to_chars. simpl. rewrite list_ascii_of_string_app. reflexivity. Qed.

Lemma to_chars_Str exps :
  to_chars (Str exps) =
  "("%char :: List.concat (map to_chars exps) ++ [")"%char].
Proof.
  unfold to_chars. simpl. rewrite list_ascii_of_string_app.
  rewrite list_ascii_of_concat, map_map. reflexivity.
Qed.

Lemma spec_factors_of_children exps :
  exps <> [] ->
  Forall (fun e => spec_factor (to_chars e) e) exps ->
  spec_factors (List.concat (map to_chars exps)) exps.
Proof.
  intros Hne Hall. induction Hall as [|e exps He Hall IH]; [contradiction|].
  destruct exps as [|e' exps].
  - simpl. rewrite app_nil_r. apply spec_factors_one. exact He.
  - simpl. apply spec_factors_more; [exact He|]. apply IH. discriminate.
Qed.

(** A tree of the grammar's shape without [Or] and without a doubled star
    renders as a factor that yields the tree again. *)
Lemma render_factor t :
  grammar_shape t = true -> or_free t = true -> star_once t = true ->
  spec_factor (to_chars t) t.
Proof.
  induction t as [|c| |e IH|e1 e2 _ _|exps IH] using Node_nested_ind;
    intros Hshape Hor Hstar; try discriminate.
  - apply spec_factor_base. apply spec_base_char. exact Hshape.
  - apply spec_factor_base. apply spec_base_any.
  - rewrite to_chars_ZeroOrMore. apply spec_factor_star.
    assert (Hf : spec_factor (to_chars e) e).
    { apply IH; [exact Hshape|exact Hor|]. destruct e; try exact Hstar.
      discriminate. }
    inversion Hf; subst; [assumption|]. discriminate.
  - rewrite to_chars_Str. apply spec_factor_base, spec_base_group.
    simpl in Hshape, Hor, Hstar. apply andb_prop in Hshape.
    destruct Hshape as [Hlen Hshape].
    assert (Hc : collapse exps = Str exps).
    { destruct exps as [|e1 [|e2 exps]]; try discriminate. reflexivity. }
    rewrite <- Hc. apply spec_regex_term, spec_term_factors.
    apply spec_factors_of_children.
    + destruct exps; [discriminate|]. discriminate.
    + rewrite forallb_forall in Hshape, Hor, Hstar.
      rewrite Forall_forall in *. intros e He. apply IH; auto.
Qed.

Lemma render_term t :
  grammar_shape t = true -> or_free t = true -> star_once t = true ->
  spec_term (to_chars t) t.
Proof.
  intros H1 H2 H3. change t with (collapse [t]) at 2.
  apply spec_term_factors, spec_factors_one, render_factor; assumption.
Qed.

Lemma render_regex t :
  grammar_shape t = true -> or_at_root_only t = true -> star_once t = true ->
  spec_regex (to_chars t) t.
Proof.
  intros Hshape Hor Hstar. destruct t;
    try (apply spec_regex_term, render_term; assumption).
  rewrite to_chars_Or. simpl in *.
  apply andb_prop in Hshape, Hor, Hstar.
  destruct Hshape, Hor, Hstar. apply spec_regex_alt; apply render_term; assumption.
Qed.

(** ** The parser accepts only what the grammar derives *)

Lemma expect_inv symbol p o p' :
  expect symbol p = Ret o p' ->
  (o = Some true /\
   exists rest, tokens p = symbol :: rest /\ p' = set_tokens p rest) \/
  (o = None /\ hd_error (tokens p) <> Some symbol /\
   p' = mkParser (inp p) (tokens p) true
          (stderr p ++
             [err_line (inp p)
                (match tokens p with
                 | c :: _ => unexpected_symbol c
                 | [] => "Unexpected end of file"%string
                 end)])).
Proof.
  unfold expect. intros H.
  apply bind_inv in H. destruct H as (a & p1 & H1 & H).
  apply accept_inv in H1.
  destruct H1 as [(-> & rest & Ht & ->)|(-> & -> & Hne)].
  - apply ret_inv in H. destruct H as [<- <-]. left. eauto.
  - right. apply bind_inv in H. destruct H as (toks & p2 & H2 & H).
    apply get_tokens_inv in H2. destruct H2 as [-> ->].
    apply bind_inv in H. destruct H as (u & p2 & H2 & H).
    apply ret_inv in H. destruct H as [<- <-].
    split; [reflexivity|]. split; [exact Hne|].
    destruct (tokens p) as [|c rest] eqn:Ht; simpl in H2.
    + inversion H2; subst. rewrite Ht. reflexivity.
    + apply bind_inv in H2. destruct H2 as (c1 & p3 & H3 & H2).
      apply peek_inv in H3. destruct H3 as (-> & rest1 & Ht1).
      rewrite Ht in Ht1. injection Ht1 as <- <-.
      inversion H2; subst. rewrite Ht. reflexivity.
Qed.

Lemma not_reserved_literal c :
  c <> "("%char -> c <> ")"%char -> c <> "|"%char -> c <> "*"%char ->
  c <> "."%char -> is_literal c = true.
Proof.
  intros H1 H2 H3 H4 H5. unfold is_literal, reserved. simpl.
  destruct (Ascii.eqb_spec c "("); [contradiction|].
  destruct (Ascii.eqb_spec c ")"); [contradiction|].
  destruct (Ascii.eqb_spec c "|"); [contradiction|].
  destruct (Ascii.eqb_spec c "*"); [contradiction|].
  destruct (Ascii.eqb_spec c "."); [contradiction|].
  reflexivity.
Qed.

(** Whatever a rule returns with the failure flag unset, it has consumed a
    prefix of the tokens that the grammar derives as the returned tree.
    [factor] and [base] are entered by [term] only in front of a token that
    is neither a closing parenthesis nor a bar. *)
Lemma rules_derive fuel :
  (forall p t p',
      regex fuel p = Ret t p' -> failure p' = false ->
      exists s, tokens p = s ++ tokens p' /\ spec_regex s t) /\
  (forall p t p',
      term fuel p = Ret t p' -> failure p' = false ->
      exists s, tokens p = s ++ tokens p' /\ spec_term s t) /\
  (forall exps p exps' p',
      term_loop fuel exps p = Ret exps' p' -> failure p' = false ->
      exists s ts,
        tokens p = s ++ tokens p' /\ exps' = exps ++ ts /\
        ((s = [] /\ ts = []) \/ spec_factors s ts)) /\
  (forall p t p',
      factor fuel p = Ret t p' -> failure p' = false ->
      hd_error (tokens p) <> Some ")"%char ->
      hd_error (tokens p) <> Some "|"%char ->
      exists s, tokens p = s ++ tokens p' /\ spec_factor s t) /\
  (forall p t p',
      base fuel p = Ret t p' -> failure p' = false ->
      hd_error (tokens p) <> Some ")"%char ->
      hd_error (tokens p) <> Some "|"%char ->
      exists s, tokens p = s ++ tokens p' /\ spec_base s t).
Proof.
  induction fuel as [|fuel (IHr & IHt & IHl & IHf & IHb)].
  - split5; intros; discriminate.
  - split5.
    + (* regex *)
      intros p t p' H Hc. rewrite regex_unfold in H.
      destruct (term fuel p) as [t1 p1| |] eqn:H1; try discriminate.
      destruct (tokens p1) as [|c rest] eqn:Ht1.
      { injection H as <- <-.
        destruct (IHt _ _ _ H1 Hc) as (s & Hs & Hg).
        exists s. split; [exact Hs|]. apply spec_regex_term, Hg. }
      destruct (Ascii.eqb_spec c "|") as [->|Hne].
      * destruct (term fuel (set_tokens p1 rest)) as [t2 p2| |] eqn:H2;
          try discriminate.
        injection H as <- <-.
        destruct (IHt _ _ _ H2 Hc) as (s2 & Hs2 & Hg2). simpl in Hs2.
        assert (Hc1 : failure p1 = false).
        { apply (clean_before _ _ _ _ (preserves_term fuel) H2) in Hc.
          exact Hc. }
        destruct (IHt _ _ _ H1 Hc1) as (s1 & Hs1 & Hg1).
        exists (s1 ++ "|"%char :: s2). split.
        -- rewrite Hs1, Ht1, Hs2, <- app_assoc. reflexivity.
        -- apply spec_regex_alt; assumption.
      * injection H as <- <-.
        destruct (IHt _ _ _ H1 Hc) as (s & Hs & Hg).
        exists s. split; [exact Hs|]. apply spec_regex_term, Hg.
    + (* term *)
      intros p t p' H Hc. rewrite term_S in H.
      apply bind_inv in H. destruct H as (exps & p1 & H1 & H).
      apply bind_inv in H. destruct H as (u & p2 & H2 & H).
      apply ret_inv in H. destruct H as [<- <-].
      destruct exps as [|e1 exps]; simpl in H2.
      { apply error_inv in H2. congruence. }
      apply ret_inv in H2. destruct H2 as [_ <-].
      destruct (IHl _ _ _ _ H1 Hc) as (s & ts & Hs & Hts & Hg).
      simpl in Hts. subst ts.
      destruct Hg as [[_ Hnil]|Hg]; [discriminate|].
      exists s. split; [exact Hs|].
      exact (spec_term_factors _ _ Hg).
    + (* the loop of term *)
      intros exps p exps' p' H Hc. rewrite term_loop_S in H.
      apply bind_inv in H. destruct H as (go & p1 & H1 & H).
      apply term_continues_inv in H1. destruct H1 as (-> & Hgo & _).
      destruct go.
      * destruct Hgo as (c & rest & Ht & Hc1 & Hc2); [reflexivity|].
        apply bind_inv in H. destruct H as (nf & p2 & H2 & H).
        destruct (IHl _ _ _ _ H Hc) as (s2 & ts & Hs2 & Hts & Hg2).
        pose proof (clean_before _ _ _ _ (preserves_term_loop fuel _) H Hc)
          as Hc'.
        destruct (IHf _ _ _ H2 Hc') as (s1 & Hs1 & Hg1).
        { rewrite Ht. simpl. congruence. }
        { rewrite Ht. simpl. congruence. }
        exists (s1 ++ s2), (nf :: ts). split; [|split].
        -- rewrite Hs1, Hs2, app_assoc. reflexivity.
        -- rewrite Hts, <- app_assoc. reflexivity.
        -- right. destruct Hg2 as [[-> ->]|Hg2].
           ++ rewrite app_nil_r. apply spec_factors_one, Hg1.
           ++ apply spec_factors_more; assumption.
      * apply ret_inv in H. destruct H as [<- <-].
        exists [], []. rewrite app_nil_r. auto.
    + (* factor *)
      intros p t p' H Hc Hn1 Hn2. rewrite factor_S in H.
      apply bind_inv in H. destruct H as (b & p1 & H1 & H).
      apply bind_inv in H. destruct H as (star & p2 & H2 & H).
      apply ret_inv in H. destruct H as [<- <-].
      pose proof (clean_before _ _ _ _ (preserves_accept _) H2 Hc) as Hc1.
      destruct (IHb _ _ _ H1 Hc1 Hn1 Hn2) as (s & Hs & Hg).
      apply accept_inv in H2.
      destruct H2 as [(-> & rest & Ht & ->)|(-> & -> & _)].
      * exists (s ++ ["*"%char]). split.
        -- rewrite Hs, Ht, <- app_assoc. reflexivity.
        -- apply spec_factor_star, Hg.
      * exists s. split; [exact Hs|]. apply spec_factor_base, Hg.
    + (* base *)
      intros p t p' H Hc Hn1 Hn2. rewrite base_S in H.
      apply bind_inv in H. destruct H as (lp & p1 & H1 & H).
      apply accept_inv in H1.
      destruct H1 as [(-> & rest & Ht & ->)|(-> & -> & Hn3)].
      { apply bind_inv in H. destruct H as (r & p2 & H2 & H).
        apply bind_inv in H. destruct H as (o & p3 & H3 & H).
        apply ret_inv in H. destruct H as [<- <-].
        apply expect_inv in H3.
        destruct H3 as [(_ & rest2 & Ht2 & ->)|(_ & _ & ->)];
          [|discriminate Hc].
        destruct (IHr _ _ _ H2 Hc) as (s & Hs & Hg). simpl in Hs.
        exists ("("%char :: s ++ [")"%char]). split.
        - rewrite Ht, Hs, Ht2. simpl. rewrite <- app_assoc. reflexivity.
        - apply spec_base_group, Hg. }
      apply bind_inv in H. destruct H as (dot & p1 & H1 & H).
      apply accept_inv in H1.
      destruct H1 as [(-> & rest & Ht & ->)|(-> & -> & Hn4)].
      { apply ret_inv in H. destruct H as [<- <-].
        exists ["."%char]. split; [exact Ht|apply spec_base_any]. }
      apply bind_inv in H. destruct H as (star & p1 & H1 & H).
      apply accept_inv in H1.
      destruct H1 as [(-> & rest & Ht & ->)|(-> & -> & Hn5)].
      { apply bind_inv in H. destruct H as (u & p1 & H1 & H).
        apply ret_inv in H. destruct H as [<- <-].
        apply error_inv in H1. congruence. }
      apply bind_inv in H. destruct H as (c & p1 & H1 & H).
      apply peek_inv in H1. destruct H1 as (-> & rest & Ht).
      apply bind_inv in H. destruct H as (u & p1 & H1 & H).
      apply ret_inv in H. destruct H as [<- <-].
      inversion H1; subst. rewrite Ht in *. simpl in *.
      exists [c]. split; [reflexivity|].
      apply spec_base_char, not_reserved_literal; congruence.
Qed.

Lemma parse_inv fuel p r p' :
  parse fuel p = Ret r p' ->
  exists t p1,
    regex fuel p = Ret t p1 /\
    r = (if failure p' then None else Some t) /\
    ((tokens p1 = [] /\ p' = p1) \/
     (exists c rest,
         tokens p1 = c :: rest /\
         p' = mkParser (inp p1) (tokens p1) true
                (stderr p1 ++ [err_line (inp p1) (unexpected_symbol c)]))).
Proof.
  unfold parse. intros H.
  apply bind_inv in H. destruct H as (t & p1 & Hregex & H).
  exists t, p1. split; [exact Hregex|].
  apply bind_inv in H. destruct H as (toks & p2 & H2 & H).
  apply get_tokens_inv in H2. destruct H2 as [-> ->].
  apply bind_inv in H. destruct H as (u & p2 & H2 & H).
  apply bind_inv in H. destruct H as (f & p3 & H3 & H).
  injection H3 as <- <-. apply ret_inv in H. destruct H as [<- <-].
  split; [destruct (failure p2); reflexivity|].
  destruct (tokens p1) as [|c rest] eqn:Ht; simpl in H2.
  - apply ret_inv in H2. destruct H2 as [_ <-]. left. auto.
  - right. apply bind_inv in H2. destruct H2 as (c1 & p3 & H3 & H2).
    apply peek_inv in H3. destruct H3 as (-> & rest1 & Ht1).
    rewrite Ht in Ht1. injection Ht1 as <- <-.
    inversion H2; subst. exists c, rest. rewrite Ht. auto.
Qed.

Lemma parse_derives inp t p' :
  run_parse inp = Ret (Some t) p' ->
  spec_regex (list_ascii_of_string inp) t /\ p' = mkParser inp [] false [].
Proof.
  intros H. unfold run_parse in H.
  pose proof (preserves_parse _ _ _ _ H) as Hstep.
  apply parse_inv in H. destruct H as (t0 & p1 & Hregex & Hr & Hend).
  destruct (failure p') eqn:Hf; [discriminate|]. injection Hr as ->.
  destruct Hend as [[Ht ->]|(c & rest & _ & ->)]; [|discriminate Hf].
  destruct (proj1 (rules_derive _) _ _ _ Hregex Hf) as (s & Hs & Hg).
  rewrite Ht, app_nil_r in Hs. simpl in Hs. subst s.
  split; [exact Hg|].
  destruct (step_clean _ _ Hstep Hf) as [_ Hstderr].
  destruct Hstep as (Hinp & _). simpl in *.
  destruct p1 as [i tk f e]. simpl in *. subst. reflexivity.
Qed.

(** ** Where the rules stop *)

Lemma term_loop_stops fuel exps p exps' p' :
  term_loop fuel exps p = Ret exps' p' -> ends_term (tokens p').
Proof.
  revert exps p. induction fuel as [|fuel IH]; intros exps p H; [discriminate|].
  rewrite term_loop_S in H.
  apply bind_inv in H. destruct H as (go & p1 & H1 & H).
  apply term_continues_inv in H1. destruct H1 as (-> & _ & Hstop).
  destruct go.
  - apply bind_inv in H. destruct H as (nf & p2 & _ & H). exact (IH _ _ H).
  - apply ret_inv in H. destruct H as [_ <-].
    destruct (Hstop eq_refl) as [Ht|Ht]; [left|right]; exact Ht.
Qed.

Lemma term_stops fuel p t p' :
  term fuel p = Ret t p' -> ends_term (tokens p').
Proof.
  destruct fuel as [|fuel]; [discriminate|]. rewrite term_S. intros H.
  apply bind_inv in H. destruct H as (exps & p1 & H1 & H).
  apply term_loop_stops in H1.
  apply bind_inv in H. destruct H as (u & p2 & H2 & H).
  apply ret_inv in H. destruct H as [_ <-].
  destruct (negb (truthy exps)).
  - inversion H2; subst. exact H1.
  - apply ret_inv in H2. destruct H2 as [_ <-]. exact H1.
Qed.

Lemma regex_stops fuel p t p' :
  regex fuel p = Ret t p' -> ends_term (tokens p').
Proof.
  destruct fuel as [|fuel]; [discriminate|]. rewrite regex_unfold. intros H.
  destruct (term fuel p) as [t1 p1| |] eqn:H1; try discriminate.
  pose proof (term_stops _ _ _ _ H1) as Hstop.
  destruct (tokens p1) as [|c rest] eqn:Ht.
  - injection H as _ <-. rewrite Ht. left. reflexivity.
  - destruct (Ascii.eqb c "|").
    + destruct (term fuel (set_tokens p1 rest)) as [t2 p2| |] eqn:H2;
        try discriminate.
      injection H as _ <-. exact (term_stops _ _ _ _ H2).
    + injection H as _ <-. rewrite Ht. exact Hstop.
Qed.

(** ** The diagnostics *)

Lemma reports_refl p : reports p p.
Proof.
  split; [reflexivity|]. exists []. simpl. rewrite app_nil_r. auto.
Qed.

Lemma reports_trans p1 p2 p3 : reports p1 p2 -> reports p2 p3 -> reports p1 p3.
Proof.
  intros (Hi1 & m1 & Hs1 & Hk1) (Hi2 & m2 & Hs2 & Hk2).
  split; [congruence|]. exists (m1 ++ m2). split.
  - rewrite Hs2, Hs1, Hi1, map_app, app_assoc. reflexivity.
  - apply Forall_app. auto.
Qed.

Lemma reporting_ret {A} (a : A) : reporting (ret a).
Proof.
  intros p b p' H. apply ret_inv in H. destruct H as [_ <-]. apply reports_refl.
Qed.

Lemma reporting_bind {A B} (m : M A) (k : A -> M B) :
  reporting m -> (forall a, reporting (k a)) -> reporting (bind m k).
Proof.
  intros Hm Hk p b p' H. apply bind_inv in H. destruct H as (a & p1 & H1 & H2).
  eapply reports_trans; [eapply Hm | eapply Hk]; eassumption.
Qed.

Lemma reporting_get_tokens : reporting get_tokens.
Proof. intros p a p' H. injection H as _ <-. apply reports_refl. Qed.

Lemma reporting_get_failure : reporting get_failure.
Proof. intros p a p' H. injection H as _ <-. apply reports_refl. Qed.

Lemma reporting_raise {A} : reporting (@raise_IndexError A).
Proof. intros p a p' H. discriminate. Qed.

Lemma reporting_out_of_fuel {A} : reporting (@out_of_fuel A).
Proof. intros p a p' H. discriminate. Qed.

Lemma reporting_next_token : reporting next_token.
Proof.
  intros p a p' H. inversion H; subst. split; [reflexivity|].
  exists []. simpl. rewrite app_nil_r. auto.
Qed.

Lemma reporting_error message : known_message message -> reporting (error message).
Proof.
  intros Hk p a p' H. inversion H; subst. split; [reflexivity|].
  exists [message]. simpl. auto.
Qed.

Lemma known_empty_factor : known_message "Empty factor".
Proof. left. reflexivity. Qed.

Lemma known_end_of_file : known_message "Unexpected end of file".
Proof. right. left. reflexivity. Qed.

Lemma known_unexpected c : known_message (unexpected_symbol c).
Proof. right. right. exists c. reflexivity. Qed.

Lemma known_unexpected_star : known_message "Unexpected symbol: *".
Proof. exact (known_unexpected "*"). Qed.

Create HintDb reporting.

#[local] Hint Resolve reporting_get_tokens reporting_get_failure
  reporting_raise reporting_out_of_fuel reporting_next_token
  reporting_error known_empty_factor known_end_of_file known_unexpected
  known_unexpected_star : reporting.

Ltac reporting_tac :=
  repeat first
    [ assumption
    | apply reporting_ret
    | apply reporting_bind; [ | intros ? ]
    | match goal with
      | |- reporting (if ?b then _ else _) => destruct b
      | |- reporting (match ?l with [] => _ | _ :: _ => _ end) => destruct l
      end
    | solve [auto with reporting] ].

Lemma reporting_peek : reporting peek.
Proof. unfold peek. reporting_tac. Qed.

Lemma reporting_accept symbol : reporting (accept symbol).
Proof. unfold accept. reporting_tac. Qed.

#[local] Hint Resolve reporting_peek reporting_accept : reporting.

Lemma reporting_expect symbol : reporting (expect symbol).
Proof. unfold expect. reporting_tac. Qed.

Lemma reporting_term_continues : reporting term_continues.
Proof. unfold term_continues. reporting_tac. Qed.

#[local] Hint Resolve reporting_expect reporting_term_continues : reporting.

Lemma reporting_rules fuel :
  reporting (regex fuel) /\ reporting (term fuel) /\
  (forall exps, reporting (term_loop fuel exps)) /\
  reporting (factor fuel) /\ reporting (base fuel).
Proof.
  induction fuel as [|fuel (IHr & IHt & IHl & IHf & IHb)].
  - split5; [ | | intros exps | | ]; apply reporting_out_of_fuel.
  - split5; [ | | intros exps | | ].
    + rewrite regex_S. reporting_tac.
    + rewrite term_S. reporting_tac.
    + rewrite term_loop_S. reporting_tac.
    + rewrite factor_S. reporting_tac.
    + rewrite base_S. reporting_tac.
Qed.

Lemma reporting_parse fuel : reporting (parse fuel).
Proof.
  destruct (reporting_rules fuel) as (Hr & _). unfold parse. reporting_tac.
Qed.

(** ** Parentheses in the grammar *)

Lemma strip_parens_app s1 s2 :
  strip_parens (s1 ++ s2) = strip_parens s1 ++ strip_parens s2.
Proof. apply filter_app. Qed.

Lemma to_chars_collapse ts :
  ts <> [] ->
  strip_parens (to_chars (collapse ts)) =
  strip_parens (List.concat (map to_chars ts)).
Proof.
  intros Hne. destruct ts as [|e1 [|e2 ts]]; [contradiction| |].
  - simpl. rewrite app_nil_r. reflexivity.
  - unfold collapse. rewrite to_chars_Str.
    change ("("%char :: ?l) with (["("%char] ++ l).
    rewrite !strip_parens_app. simpl. rewrite app_nil_r. reflexivity.
Qed.

Lemma grammar_strip_parens :
  (forall s t, spec_regex s t -> strip_parens (to_chars t) = strip_parens s) /\
  (forall s t, spec_term s t -> strip_parens (to_chars t) = strip_parens s) /\
  (forall s ts, spec_factors s ts ->
     strip_parens (List.concat (map to_chars ts)) = strip_parens s) /\
  (forall s t, spec_factor s t -> strip_parens (to_chars t) = strip_parens s) /\
  (forall s t, spec_base s t -> strip_parens (to_chars t) = strip_parens s).
Proof.
  apply spec_grammar_ind.
  - intros s t _ IH. exact IH.
  - intros s1 t1 s2 t2 _ IH1 _ IH2. rewrite to_chars_Or.
    rewrite !strip_parens_app. simpl. rewrite IH1, IH2. reflexivity.
  - intros s ts Hfs IH. rewrite to_chars_collapse; [exact IH|].
    eapply spec_factors_nonempty; eassumption.
  - intros s t _ IH. simpl. rewrite app_nil_r. exact IH.
  - intros s1 t s2 ts _ IH1 _ IH2. simpl.
    rewrite !strip_parens_app, IH1, IH2. reflexivity.
  - intros s t _ IH. exact IH.
  - intros s t _ IH. rewrite to_chars_ZeroOrMore, !strip_parens_app, IH.
    reflexivity.
  - intros c Hc. reflexivity.
  - reflexivity.
  - intros s t _ IH. rewrite IH.
    change ("("%char :: s ++ [")"%char]) with (["("%char] ++ s ++ [")"%char]).
    rewrite !strip_parens_app. simpl. rewrite app_nil_r. reflexivity.
Qed.

Lemma balanced_app s1 s2 : balanced s1 -> balanced s2 -> balanced (s1 ++ s2).
Proof. unfold balanced. intros H1 H2. rewrite !count_occ_app. lia. Qed.

Lemma grammar_balanced :
  (forall s t, spec_regex s t -> balanced s) /\
  (forall s t, spec_term s t -> balanced s) /\
  (forall s ts, spec_factors s ts -> balanced s) /\
  (forall s t, spec_factor s t -> balanced s) /\
  (forall s t, spec_base s t -> balanced s).
Proof.
  apply spec_grammar_ind; intros; try assumption.
  - apply balanced_app; [assumption|].
    apply (balanced_app ["|"%char]); [reflexivity|assumption].
  - apply balanced_app; assumption.
  - apply balanced_app; [assumption|reflexivity].
  - apply literal_not_reserved in H. destruct H as (H1 & H2 & _).
    unfold balanced. simpl.
    destruct (ascii_dec c "("); [congruence|].
    destruct (ascii_dec c ")"); [congruence|]. reflexivity.
  - reflexivity.
  - unfold balanced in *.
    change ("("%char :: s ++ [")"%char]) with (["("%char] ++ s ++ [")"%char]).
    rewrite !count_occ_app. simpl. lia.
Qed.

(** ** The debug form *)

Lemma all_strings_map ss : all_strings (map IsStr ss) = Returned ss.
Proof. induction ss as [|s ss IH]; simpl; [reflexivity|]. rewrite IH. reflexivity. Qed.

Lemma chars_app s1 s2 : chars (s1 ++ s2) = chars s1 ++ chars s2.
Proof. apply list_ascii_of_string_app. Qed.

Lemma chars_concat ss :
  chars (String.concat ", " ss) = join_chars (map chars ss).
Proof.
  induction ss as [|x ss IH]; [reflexivity|].
  destruct ss as [|y ss]; [reflexivity|].
  change (String.concat ", " (x :: y :: ss))
    with (x ++ ", " ++ String.concat ", " (y :: ss))%string.
  rewrite !chars_app, IH. reflexivity.
Qed.

Lemma for_each_concrete exps :
  Forall (fun e => exists s, ast_str e = Returned (IsStr s) /\
                             chars s = debug_chars e) exps ->
  exists ss, for_each ast_str exps = Returned (map IsStr ss) /\
             map chars ss = map debug_chars exps.
Proof.
  induction 1 as [|e exps (s & He & Hs) _ (ss & Hss & Hm)].
  - exists []. auto.
  - exists (s :: ss). simpl. rewrite He, Hss, Hs, Hm. auto.
Qed.

(** On a tree without bare [Node], [ast_str] returns a string, whose
    characters are [debug_chars]. *)
Lemma ast_str_concrete t :
  concrete t = true ->
  exists s, ast_str t = Returned (IsStr s) /\ chars s = debug_chars t.
Proof.
  induction t as [|c| |e IH|e1 e2 IH1 IH2|exps IH] using Node_nested_ind;
    simpl; intros H; try discriminate.
  - eexists. split; reflexivity.
  - eexists. split; reflexivity.
  - destruct (IH H) as (s & -> & Hs). eexists. split; [reflexivity|].
    unfold chars in *. simpl. rewrite list_ascii_of_string_app, Hs.
    reflexivity.
  - apply andb_prop in H. destruct H as [H1 H2].
    destruct (IH1 H1) as (s1 & -> & Hs1). destruct (IH2 H2) as (s2 & -> & Hs2).
    eexists. split; [reflexivity|].
    unfold chars in *. simpl.
    rewrite list_ascii_of_string_app. simpl.
    rewrite list_ascii_of_string_app, Hs1, Hs2. reflexivity.
  - assert (Hall : Forall (fun e => exists s, ast_str e = Returned (IsStr s) /\
                                              chars s = debug_chars e) exps).
    { rewrite forallb_forall in H. rewrite Forall_forall in *. auto. }
    destruct (for_each_concrete _ Hall) as (ss & -> & Hm).
    unfold join. rewrite all_strings_map.
    eexists. split; [reflexivity|].
    rewrite <- Hm, <- chars_concat. unfold chars. simpl.
    rewrite list_ascii_of_string_app. reflexivity.
Qed.

Lemma debug_chars_head t :
  concrete t = true ->
  exists c rest, debug_chars t = c :: rest /\ c <> "]"%char /\ c <> ","%char.
Proof.
  destruct t; simpl; intros H; try discriminate;
    eexists _, _; (split; [reflexivity|split; discriminate]).
Qed.

Lemma join_chars_cons x rest :
  join_chars (x :: rest) =
  x ++ match rest with
       | [] => []
       | _ :: _ => chars ", " ++ join_chars rest
       end.
Proof. destruct rest; simpl; [rewrite app_nil_r|]; reflexivity. Qed.

Lemma join_chars_prefix_free es1 :
  Forall prefix_free_at es1 ->
  forallb concrete es1 = true ->
  forall es2, forallb concrete es2 = true ->
  forall r1 r2,
    join_chars (map debug_chars es1) ++ chars "])" ++ r1 =
    join_chars (map debug_chars es2) ++ chars "])" ++ r2 ->
    es1 = es2 /\ r1 = r2.
Proof.
  induction 1 as [|e1 es1 He1 Hall IH]; intros C1 es2 C2 r1 r2 H.
  - destruct es2 as [|e2 es2].
    + simpl in H. injection H as ->. auto.
    + simpl in C2. apply andb_prop in C2. destruct C2 as [C2 _].
      destruct (debug_chars_head _ C2) as (c & rest & Hd & Hc & _).
      simpl map in H. rewrite join_chars_cons, Hd in H. simpl in H.
      injection H as Hh _. congruence.
  - simpl in C1. apply andb_prop in C1. destruct C1 as [C1 C1'].
    destruct es2 as [|e2 es2].
    + destruct (debug_chars_head _ C1) as (c & rest & Hd & Hc & _).
      simpl map in H. rewrite join_chars_cons, Hd in H. simpl in H.
      injection H as Hh _. congruence.
    + simpl in C2. apply andb_prop in C2. destruct C2 as [C2 C2'].
      simpl map in H. rewrite !join_chars_cons, <- !app_assoc in H.
      destruct (He1 C1 _ C2 _ _ H) as [<- H'].
      destruct es1 as [|y1 es1], es2 as [|y2 es2]; simpl map in H'.
      * simpl in H'. injection H' as ->. auto.
      * simpl in H'. discriminate H'.
      * simpl in H'. discriminate H'.
      * change (chars ", " ++
                  (join_chars (map debug_chars (y1 :: es1)) ++ chars "])" ++ r1) =
                chars ", " ++
                  (join_chars (map debug_chars (y2 :: es2)) ++ chars "])" ++ r2))
          in H'.
        apply app_inv_head in H'.
        destruct (IH C1' _ C2' _ _ H') as [<- <-]. auto.
Qed.

Lemma debug_chars_ZeroOrMore e r :
  debug_chars (ZeroOrMore e) ++ r =
  chars "ZeroOrMore (" ++ debug_chars e ++ chars ")" ++ r.
Proof.
  change (debug_chars (ZeroOrMore e))
    with (chars "ZeroOrMore (" ++ debug_chars e ++ chars ")").
  rewrite <- !app_assoc. reflexivity.
Qed.

Lemma debug_chars_Or e1 e2 r :
  debug_chars (Or e1 e2) ++ r =
  chars "Or (" ++ debug_chars e1 ++ chars ", " ++ debug_chars e2 ++
  chars ")" ++ r.
Proof.
  change (debug_chars (Or e1 e2))
    with (chars "Or (" ++ debug_chars e1 ++ chars ", " ++ debug_chars e2 ++
          chars ")").
  rewrite <- !app_assoc. reflexivity.
Qed.

Lemma debug_chars_Str exps r :
  debug_chars (Str exps) ++ r =
  chars "Str ([" ++ join_chars (map debug_chars exps) ++ chars "])" ++ r.
Proof.
  change (debug_chars (Str exps))
    with (chars "Str ([" ++ join_chars (map debug_chars exps) ++ chars "])").
  rewrite <- !app_assoc. reflexivity.
Qed.

Lemma debug_chars_prefix_free t1 : prefix_free_at t1.
Proof.
  induction t1 as [|c| |e IH|e1 e2 IH1 IH2|exps IH] using Node_nested_ind;
    intros C1 t2 C2 r1 r2 H; try discriminate C1;
    destruct t2; try discriminate C2; try discriminate H.
  - simpl in H. injection H as <- <-. auto.
  - simpl in H. injection H as <-. auto.
  - simpl in C1, C2. rewrite !debug_chars_ZeroOrMore in H.
    apply app_inv_head in H.
    destruct (IH C1 _ C2 _ _ H) as [<- H']. apply app_inv_head in H'. auto.
  - simpl in C1, C2. apply andb_prop in C1, C2.
    destruct C1 as [C1 C1'], C2 as [C2 C2']. rewrite !debug_chars_Or in H.
    apply app_inv_head in H.
    destruct (IH1 C1 _ C2 _ _ H) as [<- H']. apply app_inv_head in H'.
    destruct (IH2 C1' _ C2' _ _ H') as [<- H'']. apply app_inv_head in H''.
    auto.
  - simpl in C1, C2. rewrite !debug_chars_Str in H.
    apply app_inv_head in H.
    destruct (join_chars_prefix_free _ IH C1 _ C2 _ _ H) as [<- <-]. auto.
Qed.

Lemma grammar_shape_concrete t : grammar_shape t = true -> concrete t = true.
Proof.
  induction t as [|c| |e IH|e1 e2 IH1 IH2|exps IH] using Node_nested_ind;
    simpl; intros H; try assumption; try reflexivity.
  - exact (IH H).
  - apply andb_prop in H. destruct H as [H1 H2].
    rewrite (IH1 H1), (IH2 H2). reflexivity.
  - apply andb_prop in H. destruct H as [_ H].
    rewrite forallb_forall in *. rewrite Forall_forall in IH. auto.
Qed.

Lemma parsed_concrete text t p' :
  run_parse text = Ret (Some t) p' -> concrete t = true.
Proof.
  intros H. apply grammar_shape_concrete.
  apply (proj1 spec_grammar_shape (list_ascii_of_string text)).
  exact (proj1 (parse_derives _ _ _ H)).
Qed.

(** ** The singleton collapse, also on the error paths *)

Lemma no_singleton_rules fuel :
  (forall p t p', regex fuel p = Ret t p' -> no_singleton t = true) /\
  (forall p t p', term fuel p = Ret t p' -> no_singleton t = true) /\
  (forall exps p exps' p',
      term_loop fuel exps p = Ret exps' p' ->
      forallb no_singleton exps = true -> forallb no_singleton exps' = true) /\
  (forall p t p', factor fuel p = Ret t p' -> no_singleton t = true) /\
  (forall p t p', base fuel p = Ret t p' -> no_singleton t = true).
Proof.
  induction fuel as [|fuel (IHr & IHt & IHl & IHf & IHb)].
  - split5; intros; discriminate.
  - split5.
    + intros p t p' H. rewrite regex_unfold in H.
      destruct (term fuel p) as [t1 p1| |] eqn:H1; try discriminate.
      pose proof (IHt _ _ _ H1) as Ht1.
      destruct (tokens p1) as [|c rest]; [injection H as <- _; exact Ht1|].
      destruct (Ascii.eqb c "|"); [|injection H as <- _; exact Ht1].
      destruct (term fuel (set_tokens p1 rest)) as [t2 p2| |] eqn:H2;
        try discriminate.
      injection H as <- _. simpl. rewrite Ht1, (IHt _ _ _ H2). reflexivity.
    + intros p t p' H. rewrite term_S in H.
      apply bind_inv in H. destruct H as (exps & p1 & H1 & H).
      apply bind_inv in H. destruct H as (u & p2 & _ & H).
      apply ret_inv in H. destruct H as [<- _].
      pose proof (IHl _ _ _ _ H1 eq_refl) as Hall.
      destruct exps as [|e1 [|e2 exps]].
      * reflexivity.
      * simpl in Hall. rewrite andb_true_r in Hall. exact Hall.
      * change (no_singleton (Str (e1 :: e2 :: exps)))
          with (forallb no_singleton (e1 :: e2 :: exps)).
        exact Hall.
    + intros exps p exps' p' H Hall. rewrite term_loop_S in H.
      apply bind_inv in H. destruct H as (go & p1 & _ & H).
      destruct go.
      * apply bind_inv in H. destruct H as (nf & p2 & H2 & H).
        apply (IHl _ _ _ _ H). apply forallb_snoc; [exact Hall|].
        exact (IHf _ _ _ H2).
      * apply ret_inv in H. destruct H as [<- _]. exact Hall.
    + intros p t p' H. rewrite factor_S in H.
      apply bind_inv in H. destruct H as (b & p1 & H1 & H).
      apply bind_inv in H. destruct H as (star & p2 & _ & H).
      apply ret_inv in H. destruct H as [<- _].
      pose proof (IHb _ _ _ H1) as Hb. destruct star; exact Hb.
    + intros p t p' H. rewrite base_S in H.
      apply bind_inv in H. destruct H as (lp & p1 & _ & H).
      destruct lp.
      { apply bind_inv in H. destruct H as (r & p2 & H2 & H).
        apply bind_inv in H. destruct H as (u & p3 & _ & H).
        apply ret_inv in H. destruct H as [<- _]. exact (IHr _ _ _ H2). }
      apply bind_inv in H. destruct H as (dot & p2 & _ & H).
      destruct dot; [apply ret_inv in H; destruct H as [<- _]; reflexivity|].
      apply bind_inv in H. destruct H as (star & p3 & _ & H).
      destruct star.
      { apply bind_inv in H. destruct H as (u & p4 & _ & H).
        apply ret_inv in H. destruct H as [<- _]. reflexivity. }
      apply bind_inv in H. destruct H as (c & p4 & _ & H).
      apply bind_inv in H. destruct H as (u & p5 & _ & H).
      apply ret_inv in H. destruct H as [<- _]. reflexivity.
Qed.

(** ** Grouping *)

Lemma spec_regex_group s t : spec_regex s t -> spec_base ("("%char :: s ++ [")"%char]) t.
Proof. apply spec_base_group. Qed.

Lemma spec_term_of_base s t : spec_base s t -> spec_term s t.
Proof.
  intros H. change t with (collapse [t]).
  apply spec_term_factors, spec_factors_one, spec_factor_base, H.
Qed.

Lemma chars_group text :
  list_ascii_of_string ("(" ++ text ++ ")") =
  "("%char :: list_ascii_of_string text ++ [")"%char].
Proof. simpl. rewrite list_ascii_of_string_app. reflexivity. Qed.

(** ** The frame-counting model agrees with the unbounded one *)

Lemma base_fuel n fuel p t p' :
  base n p = Ret t p' -> n <= fuel -> base fuel p = Ret t p'.
Proof.
  intros H Hle. destruct (more_rules n fuel Hle) as (_ & _ & _ & _ & Hm).
  rewrite (Hm p); [exact H|]. rewrite H. discriminate.
Qed.

Lemma bind_d_inv {A B} (m : D A) (k : A -> D B) p b p' :
  bind_d m k p = Within (Ret b p') ->
  exists a p1, m p = Within (Ret a p1) /\ k a p1 = Within (Ret b p').
Proof.
  unfold bind_d. destruct (m p) as [[a p1| |]|]; try discriminate.
  intros H. exists a, p1. auto.
Qed.

Lemma bind_d_Ret {A B} (m : D A) (k : A -> D B) p a p1 :
  m p = Within (Ret a p1) -> bind_d m k p = k a p1.
Proof. unfold bind_d. intros ->. reflexivity. Qed.

(** [sim d m]: what [d] returns, [m] returns.  [sim_fuel d mf]: what [d]
    returns, [mf] returns with enough fuel. *)
Lemma sim_ret {A} (a : A) : sim (ret_d a) (ret a).
Proof. intros p b p' H. injection H as <- <-. reflexivity. Qed.

Lemma sim_shallow {A} (m : M A) : sim (shallow m) m.
Proof. intros p a p' H. injection H as H. exact H. Qed.

Lemma sim_recursion_error {A} (m : M A) : sim recursion_error m.
Proof. intros p a p' H. discriminate. Qed.

Lemma sim_bind {A B} (d : D A) (kd : A -> D B) (m : M A) (k : A -> M B) :
  sim d m -> (forall a, sim (kd a) (k a)) -> sim (bind_d d kd) (bind m k).
Proof.
  intros Hd Hk p b p' H. apply bind_d_inv in H.
  destruct H as (a & p1 & H1 & H2).
  rewrite (bind_Ret _ _ _ _ _ (Hd _ _ _ H1)). exact (Hk _ _ _ _ H2).
Qed.

Lemma sim_call {A} (body : nat -> D A) (m : M A) frames :
  (forall f, sim (body f) m) -> sim (call body frames) m.
Proof.
  intros Hb. destruct frames as [|f]; [apply sim_recursion_error|apply Hb].
Qed.

Create HintDb sim.

#[local] Hint Resolve sim_ret sim_shallow sim_recursion_error : sim.

Ltac sim_tac :=
  repeat first
    [ assumption
    | apply sim_ret
    | apply sim_shallow
    | apply sim_call; intros ?
    | apply sim_bind; [ | intros ? ]
    | match goal with
      | |- sim (if ?b then _ else _) (if ?b then _ else _) => destruct b
      | |- sim (match ?l with [] => _ | _ :: _ => _ end)
               (match ?l with [] => _ | _ :: _ => _ end) => destruct l
      end
    | solve [auto with sim] ].

Lemma sim_next_token frames : sim (next_token_d frames) next_token.
Proof. unfold next_token_d. sim_tac. Qed.

Lemma sim_peek frames : sim (peek_d frames) peek.
Proof. unfold peek_d. sim_tac. Qed.

Lemma sim_error message frames : sim (error_d message frames) (error message).
Proof. unfold error_d. sim_tac. Qed.

#[local] Hint Resolve sim_next_token sim_peek sim_error : sim.

Lemma sim_accept symbol frames : sim (accept_d symbol frames) (accept symbol).
Proof. unfold accept_d, accept. sim_tac. Qed.

#[local] Hint Resolve sim_accept : sim.

Lemma sim_expect symbol frames : sim (expect_d symbol frames) (expect symbol).
Proof. unfold expect_d, expect. sim_tac. Qed.

Lemma sim_term_continues frames : sim (term_continues_d frames) term_continues.
Proof. unfold term_continues_d, term_continues. sim_tac. Qed.

Lemma sim_init {A} (a : A) frames : sim (init a frames) (ret a).
Proof. unfold init. sim_tac. Qed.

Lemma sim_add exps e frames : sim (add exps e frames) (ret (exps ++ [e])).
Proof. unfold add. sim_tac. Qed.

#[local] Hint Resolve sim_expect sim_term_continues sim_init sim_add : sim.

Lemma regex_d_S f :
  regex_d (S f) =
  (term1 <~ term_d f ;;
   toks <~ shallow get_tokens ;;
   b <~ (if truthy toks then accept_d "|" f else ret_d false) ;;
   if b then term2 <~ term_d f ;; init (Or term1 term2) f else ret_d term1).
Proof. reflexivity. Qed.

Lemma term_d_S f :
  term_d (S f) =
  (exps0 <~ init [] f ;;
   exps <~ (fun p =>
              while_d (term_continues_d f)
                (fun exps => next_factor <~ factor_d f ;;
                             add exps next_factor f)
                (S (List.length (tokens p))) exps0 p) ;;
   (if negb (truthy exps) then error_d "Empty factor" f else ret_d tt) ;;;
   ret_d (match exps with [e] => e | _ => Str exps end)).
Proof. reflexivity. Qed.

Lemma factor_d_S f :
  factor_d (S f) =
  (b <~ base_d f ;;
   star <~ accept_d "*" f ;;
   if star then init (ZeroOrMore b) f else ret_d b).
Proof. reflexivity. Qed.

Lemma base_d_S f :
  base_d (S f) =
  (lp <~ accept_d "(" f ;;
   if lp then r <~ regex_d f ;; expect_d ")" f ;;; ret_d r
   else
     dot <~ accept_d "." f ;;
     if dot then init Any f
     else
       star <~ accept_d "*" f ;;
       if star then error_d "Unexpected symbol: *" f ;;; ret_d NodeObj
       else
         c <~ peek_d f ;;
         normal <~ init (Normal c) f ;;
         next_token_d f ;;; ret_d normal).
Proof. reflexivity. Qed.

Lemma parse_d_S f :
  parse_d (S f) =
  (r <~ regex_d f ;;
   toks <~ shallow get_tokens ;;
   (if truthy toks
    then c <~ peek_d f ;; error_d (unexpected_symbol c) f
    else ret_d tt) ;;;
   fl <~ shallow get_failure ;;
   ret_d (if negb fl then Some r else None)).
Proof. reflexivity. Qed.

Lemma while_d_S cond body n exps :
  while_d cond body (S n) exps =
  (go <~ cond ;;
   if go then exps' <~ body exps ;; while_d cond body n exps'
   else ret_d exps).
Proof. reflexivity. Qed.

Lemma init_inv {A} (a : A) frames p b p' :
  init a frames p = Within (Ret b p') -> b = a /\ p' = p.
Proof.
  intros H. apply sim_init in H. apply ret_inv in H. destruct H. auto.
Qed.

Lemma sim_while frames :
  sim_fuel (factor_d frames) factor ->
  forall n exps,
    sim_fuel
      (while_d (term_continues_d frames)
         (fun exps => next_factor <~ factor_d frames ;;
                      add exps next_factor frames) n exps)
      (fun fuel => term_loop fuel exps).
Proof.
  intros Hf. induction n as [|n IH]; intros exps p exps' p' H;
    [discriminate|].
  rewrite while_d_S in H.
  apply bind_d_inv in H. destruct H as (go & p1 & H1 & H).
  apply sim_term_continues in H1.
  destruct go.
  - apply bind_d_inv in H. destruct H as (exps1 & p3 & H2 & H).
    apply bind_d_inv in H2. destruct H2 as (nf & p2 & H2 & H3).
    apply sim_add, ret_inv in H3. destruct H3 as [<- <-].
    destruct (Hf _ _ _ H2) as [fuel1 Hf1].
    destruct (IH _ _ _ _ H) as [fuel2 Hf2].
    exists (S (Nat.max fuel1 fuel2)). rewrite term_loop_S.
    rewrite (bind_Ret _ _ _ _ _ H1).
    rewrite (bind_Ret _ _ _ _ _
               (factor_fuel _ (Nat.max fuel1 fuel2) _ _ _ Hf1 (Nat.le_max_l _ _))).
    exact (term_loop_fuel _ _ _ _ _ _ Hf2 (Nat.le_max_r _ _)).
  - injection H as <- <-. exists 1. rewrite term_loop_S.
    rewrite (bind_Ret _ _ _ _ _ H1). reflexivity.
Qed.

Lemma sim_rules frames :
  sim_fuel (regex_d frames) regex /\ sim_fuel (term_d frames) term /\
  sim_fuel (factor_d frames) factor /\ sim_fuel (base_d frames) base.
Proof.
  induction frames as [|f (IHr & IHt & IHf & IHb)].
  - repeat split; intros p a p' H; discriminate.
  - split; [|split; [|split]].
    + (* regex *)
      intros p t p' H. rewrite regex_d_S in H.
      apply bind_d_inv in H. destruct H as (t1 & p1 & H1 & H).
      apply bind_d_inv in H. destruct H as (toks & p2 & H2 & H).
      injection H2 as <- <-.
      apply bind_d_inv in H. destruct H as (b & p2 & H2 & H).
      assert (H2' : (if truthy (tokens p1) then accept "|" else ret false) p1
                    = Ret b p2).
      { destruct (truthy (tokens p1)).
        - exact (sim_accept _ _ _ _ _ H2).
        - exact (sim_ret _ _ _ _ H2). }
      destruct (IHt _ _ _ H1) as [n1 Hn1].
      destruct b.
      * apply bind_d_inv in H. destruct H as (t2 & p3 & H3 & H).
        apply init_inv in H. destruct H as [-> ->].
        destruct (IHt _ _ _ H3) as [n2 Hn2].
        exists (S (Nat.max n1 n2)). rewrite regex_S.
        rewrite (bind_Ret _ _ _ _ _
                   (term_fuel _ (Nat.max n1 n2) _ _ _ Hn1 (Nat.le_max_l _ _))).
        unfold bind at 1. unfold get_tokens at 1.
        rewrite (bind_Ret _ _ _ _ _ H2').
        rewrite (bind_Ret _ _ _ _ _
                   (term_fuel _ (Nat.max n1 n2) _ _ _ Hn2 (Nat.le_max_r _ _))).
        reflexivity.
      * injection H as <- <-.
        exists (S n1). rewrite regex_S, (bind_Ret _ _ _ _ _ Hn1).
        unfold bind at 1. unfold get_tokens at 1.
        rewrite (bind_Ret _ _ _ _ _ H2'). reflexivity.
    + (* term *)
      intros p t p' H. rewrite term_d_S in H.
      apply bind_d_inv in H. destruct H as (exps0 & p0 & H0 & H).
      apply init_inv in H0. destruct H0 as [-> ->].
      apply bind_d_inv in H. destruct H as (exps & p1 & H1 & H).
      apply bind_d_inv in H. destruct H as (u & p2 & H2 & H).
      injection H as <- <-.
      destruct (sim_while f IHf _ _ _ _ _ H1) as [n Hn].
      exists (S n). rewrite term_S, (bind_Ret _ _ _ _ _ Hn).
      assert (H2' : (if negb (truthy exps) then error "Empty factor"
                     else ret tt) p1 = Ret u p2).
      { destruct (negb (truthy exps)).
        - exact (sim_error _ _ _ _ _ H2).
        - exact (sim_ret _ _ _ _ H2). }
      rewrite (bind_Ret _ _ _ _ _ H2'). reflexivity.
    + (* factor *)
      intros p t p' H. rewrite factor_d_S in H.
      apply bind_d_inv in H. destruct H as (b & p1 & H1 & H).
      apply bind_d_inv in H. destruct H as (star & p2 & H2 & H).
      apply sim_accept in H2.
      destruct (IHb _ _ _ H1) as [n Hn].
      exists (S n). rewrite factor_S, (bind_Ret _ _ _ _ _ Hn).
      rewrite (bind_Ret _ _ _ _ _ H2).
      destruct star.
      * apply init_inv in H. destruct H as [-> ->]. reflexivity.
      * injection H as <- <-. reflexivity.
    + (* base *)
      intros p t p' H. rewrite base_d_S in H.
      apply bind_d_inv in H. destruct H as (lp & p1 & H1 & H).
      apply sim_accept in H1.
      destruct lp.
      { apply bind_d_inv in H. destruct H as (r & p2 & H2 & H).
        apply bind_d_inv in H. destruct H as (o & p3 & H3 & H).
        injection H as <- <-. apply sim_expect in H3.
        destruct (IHr _ _ _ H2) as [n Hn].
        exists (S n). rewrite base_S, (bind_Ret _ _ _ _ _ H1).
        rewrite (bind_Ret _ _ _ _ _ Hn), (bind_Ret _ _ _ _ _ H3).
        reflexivity. }
      exists 1. rewrite base_S, (bind_Ret _ _ _ _ _ H1).
      apply bind_d_inv in H. destruct H as (dot & p2 & H2 & H).
      apply sim_accept in H2. rewrite (bind_Ret _ _ _ _ _ H2).
      destruct dot.
      { apply init_inv in H. destruct H as [-> ->]. reflexivity. }
      apply bind_d_inv in H. destruct H as (star & p3 & H3 & H).
      apply sim_accept in H3. rewrite (bind_Ret _ _ _ _ _ H3).
      destruct star.
      { apply bind_d_inv in H. destruct H as (u & p4 & H4 & H).
        injection H as <- <-. apply sim_error in H4.
        rewrite (bind_Ret _ _ _ _ _ H4). reflexivity. }
      apply bind_d_inv in H. destruct H as (c & p4 & H4 & H).
      apply sim_peek in H4. rewrite (bind_Ret _ _ _ _ _ H4).
      apply bind_d_inv in H. destruct H as (nm & p5 & H5 & H).
      apply init_inv in H5. destruct H5 as [-> ->].
      apply bind_d_inv in H. destruct H as (u & p6 & H6 & H).
      injection H as <- <-. apply sim_next_token in H6.
      rewrite (bind_Ret _ _ _ _ _ H6). reflexivity.
Qed.

Lemma parse_fuel n fuel p r p' :
  parse n p = Ret r p' -> n <= fuel -> parse fuel p = Ret r p'.
Proof.
  intros H Hle. rewrite (more_parse _ _ Hle p); [exact H|].
  rewrite H. discriminate.
Qed.

Lemma sim_parse frames : sim_fuel (parse_d frames) parse.
Proof.
  intros p r p' H. destruct frames as [|f]; [discriminate|].
  rewrite parse_d_S in H.
  apply bind_d_inv in H. destruct H as (t & p1 & H1 & H).
  destruct (proj1 (sim_rules f) _ _ _ H1) as [n Hn].
  exists n. unfold parse. rewrite (bind_Ret _ _ _ _ _ Hn).
  revert H. generalize p1. clear. intros p1 H.
  assert (Hs : sim
            (toks <~ shallow get_tokens ;;
             (if truthy toks
              then c <~ peek_d f ;; error_d (unexpected_symbol c) f
              else ret_d tt) ;;;
             fl <~ shallow get_failure ;;
             ret_d (if negb fl then Some t else None))
            (toks <- get_tokens ;;
             (if truthy toks
              then c <- peek ;; error (unexpected_symbol c)
              else ret tt) ;;
             fl <- get_failure ;;
             ret (if negb fl then Some t else None))) by sim_tac.
  exact (Hs _ _ _ H).
Qed.

(** A run of the frame-counting parser that returns agrees with
    [run_parse]. *)
Lemma run_parse_d_agrees frames inp r p' :
  run_parse_d frames inp = Within (Ret r p') -> run_parse inp = Ret r p'.
Proof.
  intros H. destruct (sim_parse _ _ _ _ H) as [n Hn].
  destruct (returns_run_parse inp) as (r0 & p0 & Hrun). unfold run_parse in *.
  pose proof (parse_fuel _ (Nat.max n (fuel_for inp)) _ _ _ Hn
                (Nat.le_max_l _ _)) as H1.
  pose proof (parse_fuel _ (Nat.max n (fuel_for inp)) _ _ _ Hrun
                (Nat.le_max_r _ _)) as H2.
  congruence.
Qed.

(** ** Frames that suffice *)

Lemma fine_ret {A} need frames (a : A) p : fine need frames (ret_d a p).
Proof. left. eexists _, _. reflexivity. Qed.

Lemma fine_weaken {A} need need' frames (r : Deep A) :
  need <= need' -> fine need frames r -> fine need' frames r.
Proof. intros Hle [H|[H Hlt]]; [left; exact H|right; split; [exact H|lia]]. Qed.

Lemma fine_S {A} need frames (r : Deep A) :
  fine need frames r -> fine (S need) (S frames) r.
Proof. intros [H|[H Hlt]]; [left; exact H|right; split; [exact H|lia]]. Qed.

Lemma fine_bind {A B} need frames (m : D A) (k : A -> D B) p :
  fine need frames (m p) ->
  (forall a p1, m p = Within (Ret a p1) -> fine need frames (k a p1)) ->
  fine need frames (bind_d m k p).
Proof.
  intros [(a & p1 & Hm)|[Hm Hlt]] Hk.
  - rewrite (bind_d_Ret _ _ _ _ _ Hm). exact (Hk _ _ Hm).
  - right. unfold bind_d. rewrite Hm. auto.
Qed.

Lemma fine_call {A} need frames (body : nat -> D A) p :
  (forall f, fine need f (body f p)) ->
  fine (S need) frames (call body frames p).
Proof.
  intros Hb. destruct frames as [|f].
  - right. split; [reflexivity|lia].
  - apply fine_S, Hb.
Qed.

Lemma fine_shallow {A} need frames (m : M A) p :
  returns m p -> fine need frames (shallow m p).
Proof. intros (a & p' & H). left. exists a, p'. unfold shallow. rewrite H. reflexivity. Qed.

Lemma fine_next_token frames p : fine 1 frames (next_token_d frames p).
Proof. apply fine_call. intros f. apply fine_shallow, returns_next_token. Qed.

Lemma fine_error message frames p : fine 1 frames (error_d message frames p).
Proof. apply fine_call. intros f. apply fine_shallow, returns_error. Qed.

Lemma fine_peek frames p : tokens p <> [] -> fine 1 frames (peek_d frames p).
Proof. intros H. apply fine_call. intros f. apply fine_shallow, returns_peek, H. Qed.

Lemma fine_init {A} (a : A) frames p : fine 1 frames (init a frames p).
Proof. apply fine_call. intros f. apply fine_ret. Qed.

Lemma fine_add exps e frames p : fine 1 frames (add exps e frames p).
Proof. apply fine_call. intros f. apply fine_ret. Qed.

Lemma fine_accept symbol frames p : fine 2 frames (accept_d symbol frames p).
Proof.
  apply fine_call. intros f.
  apply fine_bind; [apply fine_shallow, returns_get_tokens|].
  intros toks p1 _. destruct toks as [|c rest]; [apply fine_ret|].
  destruct (Ascii.eqb c symbol); [|apply fine_ret].
  apply fine_bind; [apply fine_next_token|]. intros; apply fine_ret.
Qed.

Lemma fine_expect symbol frames p : fine 3 frames (expect_d symbol frames p).
Proof.
  apply fine_call. intros f.
  apply fine_bind; [apply fine_accept|].
  intros [] p1 _; [apply fine_ret|].
  apply fine_bind; [apply fine_shallow, returns_get_tokens|].
  intros toks p2 H. injection H as <- <-.
  apply fine_bind; [|intros; apply fine_ret].
  destruct (truthy (tokens p1)) eqn:Ht.
  - apply fine_bind.
    + apply (fine_weaken 1); [lia|]. apply fine_peek, truthy_nonempty, Ht.
    + intros c p2 _. apply (fine_weaken 1); [lia|]. apply fine_error.
  - apply (fine_weaken 1); [lia|]. apply fine_error.
Qed.

Lemma fine_term_continues frames p : fine 1 frames (term_continues_d frames p).
Proof.
  unfold term_continues_d.
  apply fine_bind; [apply fine_shallow, returns_get_tokens|].
  intros toks p1 H. injection H as <- <-.
  destruct (truthy (tokens p)) eqn:Ht; [|apply fine_ret].
  apply truthy_nonempty in Ht.
  apply fine_bind; [apply fine_peek, Ht|].
  intros c p1 H. apply sim_peek, peek_inv in H. destruct H as [-> _].
  destruct (Ascii.eqb c ")"); [apply fine_ret|].
  apply fine_bind; [apply fine_peek, Ht|]. intros; apply fine_ret.
Qed.

Lemma step_opens p p' : step p p' -> opens (tokens p') <= opens (tokens p).
Proof.
  intros (_ & c & m & Ht & _). rewrite Ht. unfold opens.
  rewrite count_occ_app. lia.
Qed.

Lemma factor_d_step frames p t p' :
  factor_d frames p = Within (Ret t p') -> step p p'.
Proof.
  intros H. destruct (proj1 (proj2 (proj2 (sim_rules frames))) _ _ _ H) as [n Hn].
  exact (preserves_factor _ _ _ _ Hn).
Qed.

Lemma term_d_step frames p t p' :
  term_d frames p = Within (Ret t p') -> step p p'.
Proof.
  intros H. destruct (proj1 (proj2 (sim_rules frames)) _ _ _ H) as [n Hn].
  exact (preserves_term _ _ _ _ Hn).
Qed.

Lemma regex_d_step frames p t p' :
  regex_d frames p = Within (Ret t p') -> step p p'.
Proof.
  intros H. destruct (proj1 (sim_rules frames) _ _ _ H) as [n Hn].
  exact (preserves_regex _ _ _ _ Hn).
Qed.

Lemma fine_while f :
  (forall p, tokens p <> [] ->
             fine (4 * opens (tokens p) + 4) f (factor_d f p)) ->
  forall n exps p,
    List.length (tokens p) < n ->
    fine (4 * opens (tokens p) + 4) f
      (while_d (term_continues_d f)
         (fun exps => next_factor <~ factor_d f ;; add exps next_factor f)
         n exps p).
Proof.
  intros Hf. induction n as [|n IH]; intros exps p Hn; [lia|].
  rewrite while_d_S.
  apply fine_bind.
  { apply (fine_weaken 1); [lia|]. apply fine_term_continues. }
  intros go p1 H. apply sim_term_continues, term_continues_inv in H.
  destruct H as (-> & Hgo & _).
  destruct go; [|apply fine_ret].
  destruct Hgo as (c & rest & Ht & _); [reflexivity|].
  assert (Hne : tokens p <> []) by (rewrite Ht; discriminate).
  apply fine_bind.
  { apply fine_bind; [exact (Hf p Hne)|].
    intros nf p2 _. apply (fine_weaken 1); [lia|]. apply fine_add. }
  intros exps1 p3 H.
  apply bind_d_inv in H. destruct H as (nf & p2 & H2 & H3).
  apply sim_add, ret_inv in H3. destruct H3 as [_ <-].
  pose proof (step_opens _ _ (factor_d_step _ _ _ _ H2)) as Ho.
  destruct (proj1 (proj2 (proj2 (sim_rules f))) _ _ _ H2) as [k Hk].
  apply factor_consumes in Hk; [|exact Hne].
  apply (fine_weaken (4 * opens (tokens p2) + 4)); [lia|].
  apply IH. lia.
Qed.

Lemma fine_rules frames :
  (forall p, fine (4 * opens (tokens p) + 6) frames (regex_d frames p)) /\
  (forall p, fine (4 * opens (tokens p) + 5) frames (term_d frames p)) /\
  (forall p, tokens p <> [] ->
             fine (4 * opens (tokens p) + 4) frames (factor_d frames p)) /\
  (forall p, tokens p <> [] ->
             fine (4 * opens (tokens p) + 3) frames (base_d frames p)).
Proof.
  induction frames as [|f (IHr & IHt & IHf & IHb)].
  - repeat split; intros; right; (split; [reflexivity|lia]).
  - split; [|split; [|split]].
    + (* regex *)
      intros p. rewrite regex_d_S.
      replace (4 * opens (tokens p) + 6) with (S (4 * opens (tokens p) + 5))
        by lia.
      apply fine_S. apply fine_bind; [apply IHt|].
      intros t1 p1 H1. apply term_d_step, step_opens in H1.
      apply fine_bind; [apply fine_shallow, returns_get_tokens|].
      intros toks p2 H. injection H as <- <-.
      apply fine_bind.
      { destruct (truthy (tokens p1)); [|apply fine_ret].
        apply (fine_weaken 2); [lia|]. apply fine_accept. }
      intros b p2 H2.
      assert (Hs : step p1 p2).
      { destruct (truthy (tokens p1)).
        - exact (preserves_accept _ _ _ _ (sim_accept _ _ _ _ _ H2)).
        - injection H2 as _ <-. apply step_refl. }
      apply step_opens in Hs.
      destruct b; [|apply fine_ret].
      apply fine_bind.
      { apply (fine_weaken (4 * opens (tokens p2) + 5)); [lia|]. apply IHt. }
      intros t2 p3 _. apply (fine_weaken 1); [lia|]. apply fine_init.
    + (* term *)
      intros p. rewrite term_d_S.
      replace (4 * opens (tokens p) + 5) with (S (4 * opens (tokens p) + 4))
        by lia.
      apply fine_S. apply fine_bind.
      { apply (fine_weaken 1); [lia|]. apply fine_init. }
      intros exps0 p0 H0. apply init_inv in H0. destruct H0 as [-> ->].
      apply fine_bind.
      { apply (fine_while f IHf). lia. }
      intros exps p1 _.
      apply fine_bind; [|intros; apply fine_ret].
      destruct (negb (truthy exps)); [|apply fine_ret].
      apply (fine_weaken 1); [lia|]. apply fine_error.
    + (* factor *)
      intros p Hne. rewrite factor_d_S.
      replace (4 * opens (tokens p) + 4) with (S (4 * opens (tokens p) + 3))
        by lia.
      apply fine_S. apply fine_bind; [apply IHb, Hne|].
      intros b p1 _.
      apply fine_bind.
      { apply (fine_weaken 2); [lia|]. apply fine_accept. }
      intros star p2 _. destruct star; [|apply fine_ret].
      apply (fine_weaken 1); [lia|]. apply fine_init.
    + (* base *)
      intros p Hne. rewrite base_d_S.
      replace (4 * opens (tokens p) + 3) with (S (4 * opens (tokens p) + 2))
        by lia.
      apply fine_S. apply fine_bind.
      { apply (fine_weaken 2); [lia|]. apply fine_accept. }
      intros lp p1 H1. apply sim_accept, accept_inv in H1.
      destruct H1 as [(-> & rest & Ht & ->)|(-> & -> & _)].
      { assert (Ho : opens (tokens p) = S (opens rest)).
        { rewrite Ht. unfold opens. simpl.
          destruct (ascii_dec "(" "("); [reflexivity|contradiction]. }
        apply fine_bind.
        - apply (fine_weaken (4 * opens rest + 6)); [lia|]. apply IHr.
        - intros r p2 _. apply fine_bind; [|intros; apply fine_ret].
          apply (fine_weaken 3); [lia|]. apply fine_expect. }
      apply fine_bind.
      { apply (fine_weaken 2); [lia|]. apply fine_accept. }
      intros dot p1 H1. apply sim_accept, accept_inv in H1.
      destruct H1 as [(-> & rest & Ht & ->)|(-> & -> & _)].
      { apply (fine_weaken 1); [lia|]. apply fine_init. }
      apply fine_bind.
      { apply (fine_weaken 2); [lia|]. apply fine_accept. }
      intros star p1 H1. apply sim_accept, accept_inv in H1.
      destruct H1 as [(-> & rest & Ht & ->)|(-> & -> & _)].
      { apply fine_bind; [|intros; apply fine_ret].
        apply (fine_weaken 1); [lia|]. apply fine_error. }
      apply fine_bind.
      { apply (fine_weaken 1); [lia|]. apply fine_peek, Hne. }
      intros c p1 _.
      apply fine_bind.
      { apply (fine_weaken 1); [lia|]. apply fine_init. }
      intros nm p2 _.
      apply fine_bind; [|intros; apply fine_ret].
      apply (fine_weaken 1); [lia|]. apply fine_next_token.
Qed.

Lemma fine_parse frames p :
  fine (4 * opens (tokens p) + 7) frames (parse_d frames p).
Proof.
  destruct frames as [|f]; [right; split; [reflexivity|lia]|].
  rewrite parse_d_S.
  replace (4 * opens (tokens p) + 7) with (S (4 * opens (tokens p) + 6)) by lia.
  apply fine_S. apply fine_bind; [apply fine_rules|].
  intros r p1 _.
  apply fine_bind; [apply fine_shallow, returns_get_tokens|].
  intros toks p2 H. injection H as <- <-.
  apply fine_bind.
  { destruct (truthy (tokens p1)) eqn:Ht; [|apply fine_ret].
    apply fine_bind.
    - apply (fine_weaken 1); [lia|]. apply fine_peek, truthy_nonempty, Ht.
    - intros c p2 _. apply (fine_weaken 1); [lia|]. apply fine_error. }
  intros u p2 _.
  apply fine_bind; [apply fine_shallow; eexists _, _; reflexivity|].
  intros; apply fine_ret.
Qed.

(** ** More frames change nothing but [RecursionError] *)

Lemma more_d_refl {A} (m : D A) : more_d m m.
Proof. intros p _. reflexivity. Qed.

Lemma more_d_bind {A B} (m m' : D A) (k k' : A -> D B) :
  more_d m m' -> (forall a, more_d (k a) (k' a)) ->
  more_d (bind_d m k) (bind_d m' k').
Proof.
  intros Hm Hk p. unfold bind_d. intros H.
  rewrite (Hm p) by (intros E; rewrite E in H; apply H; reflexivity).
  destruct (m p) as [[a p1| |]|]; try reflexivity.
  apply Hk. exact H.
Qed.

Lemma more_d_call {A} (body : nat -> D A) frames frames' :
  (forall f f', f <= f' -> more_d (body f) (body f')) ->
  frames <= frames' -> more_d (call body frames) (call body frames').
Proof.
  intros Hb Hle. destruct frames as [|f].
  - intros p H. exfalso. apply H. reflexivity.
  - destruct frames' as [|f']; [lia|]. apply Hb. lia.
Qed.

Ltac more_d_tac :=
  repeat first
    [ assumption
    | apply more_d_refl
    | apply more_d_bind; [ | intros ? ]
    | match goal with
      | |- more_d (if ?b then _ else _) (if ?b then _ else _) => destruct b
      | |- more_d (match ?l with [] => _ | _ :: _ => _ end)
                  (match ?l with [] => _ | _ :: _ => _ end) => destruct l
      end
    | solve [auto] ].

Lemma more_d_next_token f f' : f <= f' -> more_d (next_token_d f) (next_token_d f').
Proof. intros H. apply more_d_call; [intros; apply more_d_refl|exact H]. Qed.

Lemma more_d_peek f f' : f <= f' -> more_d (peek_d f) (peek_d f').
Proof. intros H. apply more_d_call; [intros; apply more_d_refl|exact H]. Qed.

Lemma more_d_error message f f' :
  f <= f' -> more_d (error_d message f) (error_d message f').
Proof. intros H. apply more_d_call; [intros; apply more_d_refl|exact H]. Qed.

Lemma more_d_init {A} (a : A) f f' : f <= f' -> more_d (init a f) (init a f').
Proof. intros H. apply more_d_call; [intros; apply more_d_refl|exact H]. Qed.

Lemma more_d_add exps e f f' : f <= f' -> more_d (add exps e f) (add exps e f').
Proof. intros H. apply more_d_call; [intros; apply more_d_refl|exact H]. Qed.

Lemma more_d_accept symbol f f' :
  f <= f' -> more_d (accept_d symbol f) (accept_d symbol f').
Proof.
  intros H. apply more_d_call; [|exact H]. clear. intros f f' H.
  pose proof (more_d_next_token _ _ H). more_d_tac.
Qed.

Lemma more_d_expect symbol f f' :
  f <= f' -> more_d (expect_d symbol f) (expect_d symbol f').
Proof.
  intros H. apply more_d_call; [|exact H]. clear. intros f f' H.
  pose proof (more_d_accept symbol _ _ H).
  pose proof (more_d_peek _ _ H).
  pose proof (fun m => more_d_error m _ _ H).
  more_d_tac.
Qed.

Lemma more_d_term_continues f f' :
  f <= f' -> more_d (term_continues_d f) (term_continues_d f').
Proof.
  intros H. pose proof (more_d_peek _ _ H). unfold term_continues_d. more_d_tac.
Qed.

Lemma more_d_while cond cond' body body' :
  more_d cond cond' -> (forall e, more_d (body e) (body' e)) ->
  forall n exps, more_d (while_d cond body n exps) (while_d cond' body' n exps).
Proof.
  intros Hc Hb. induction n as [|n IH]; intros exps; [apply more_d_refl|].
  rewrite !while_d_S. more_d_tac.
Qed.

Lemma more_d_rules frames :
  forall frames', frames <= frames' ->
  more_d (regex_d frames) (regex_d frames') /\
  more_d (term_d frames) (term_d frames') /\
  more_d (factor_d frames) (factor_d frames') /\
  more_d (base_d frames) (base_d frames').
Proof.
  induction frames as [|f IH]; intros frames' Hle.
  - repeat split; intros p H; exfalso; apply H; reflexivity.
  - destruct frames' as [|f']; [lia|].
    assert (Hff : f <= f') by lia.
    destruct (IH f' Hff) as (IHr & IHt & IHf & IHb).
    pose proof (fun s => more_d_accept s _ _ Hff) as Ha.
    pose proof (fun s => more_d_expect s _ _ Hff) as He.
    pose proof (more_d_peek _ _ Hff) as Hp.
    pose proof (more_d_next_token _ _ Hff) as Hn.
    pose proof (fun m => more_d_error m _ _ Hff) as Her.
    pose proof (fun a => more_d_init (A:=Node) a _ _ Hff) as Hi.
    split; [|split; [|split]].
    + rewrite !regex_d_S. more_d_tac.
    + rewrite !term_d_S.
      apply more_d_bind; [apply more_d_init, Hff|]. intros exps0.
      apply more_d_bind; [|intros exps; more_d_tac].
      intros p. apply more_d_while.
      * apply more_d_term_continues, Hff.
      * intros e. apply more_d_bind; [exact IHf|].
        intros nf. apply more_d_add, Hff.
    + rewrite !factor_d_S. more_d_tac.
    + rewrite !base_d_S. more_d_tac.
Qed.

Lemma more_d_parse frames frames' :
  frames <= frames' -> more_d (parse_d frames) (parse_d frames').
Proof.
  intros Hle. destruct frames as [|f].
  - intros p H. exfalso. apply H. reflexivity.
  - destruct frames' as [|f']; [lia|].
    assert (Hff : f <= f') by lia.
    destruct (more_d_rules f f' Hff) as (Hr & _).
    pose proof (more_d_peek _ _ Hff) as Hp.
    pose proof (fun m => more_d_error m _ _ Hff) as Her.
    rewrite !parse_d_S. more_d_tac.
Qed.

(** * The claims of the specification *)

(** ** Worked examples *)

(** C2: the example inputs parse to the specified trees: ["a*"] to a Repeat
    of the literal [a]; ["ab"] to the two-element Sequence of [a] and [b],
    whose display form is ["(ab)"]; ["a|b"] to the Alternative of [a] and
    [b]; ["(a|b)*"] to the Repeat of that Alternative.  Each parse consumes
    the whole input and prints nothing. *)
Theorem C2_example_trees :
  run_parse "a*" =
    Ret (Some (ZeroOrMore (Normal "a"))) (mkParser "a*" [] false []) /\
  run_parse "ab" =
    Ret (Some (Str [Normal "a"; Normal "b"])) (mkParser "ab" [] false []) /\
  to_str (Str [Normal "a"; Normal "b"]) = "(ab)"%string /\
  run_parse "a|b" =
    Ret (Some (Or (Normal "a") (Normal "b"))) (mkParser "a|b" [] false []) /\
  run_parse "(a|b)*" =
    Ret (Some (ZeroOrMore (Or (Normal "a") (Normal "b"))))
        (mkParser "(a|b)*" [] false []).
Proof. repeat split; reflexivity. Qed.

(** C5: ["*"] fails with "Unexpected symbol: *", recorded by [base], which
    returns the bare node for any input that starts with a star; ["a**"]
    fails with the same message: the first factor is the Repeat of [a] and
    leaves the second star, on which [base] fails.  No tree is returned. *)
Theorem C5_star_cannot_start_a_base :
  (forall fuel i rest f e,
      base (S fuel) (mkParser i ("*"%char :: rest) f e) =
      Ret NodeObj
          (mkParser i rest true (e ++ [err_line i "Unexpected symbol: *"]))) /\
  run_parse "*" =
    Ret None (mkParser "*" [] true [err_line "*" "Unexpected symbol: *"]) /\
  factor 2 (new_Parser "a**") =
    Ret (ZeroOrMore (Normal "a")) (mkParser "a**" ["*"%char] false []) /\
  run_parse "a**" =
    Ret None (mkParser "a**" [] true [err_line "a**" "Unexpected symbol: *"]).
Proof. repeat split; reflexivity. Qed.

(** C6: the empty input and ["()"] both fail with "Empty factor" and no
    other message: the loop of [term] returns an empty list of factors on
    the empty input and on the body of the group, and no tree is
    returned. *)
Theorem C6_empty_factor :
  term_loop 1 [] (new_Parser "") = Ret [] (new_Parser "") /\
  run_parse "" =
    Ret None (mkParser "" [] true [err_line "" "Empty factor"]) /\
  term_loop 1 [] (mkParser "()" [")"%char] false []) =
    Ret [] (mkParser "()" [")"%char] false []) /\
  run_parse "()" =
    Ret None (mkParser "()" [] true [err_line "()" "Empty factor"]).
Proof. repeat split; reflexivity. Qed.

(** C4, as stated, fails: on [")("] the grammar rules, within which every
    [base] is parsed, return without having printed "Unexpected symbol: )",
    whatever the fuel. *)
Lemma C4_not_recorded_by_base :
  ~ (exists fuel t p',
        regex fuel (new_Parser ")(") = Ret t p' /\
        In (err_line ")(" (unexpected_symbol ")")) (stderr p')).
Proof.
  intros (fuel & t & p' & H & Hin).
  destruct fuel as [|[|[|fuel]]]; try discriminate H.
  cbv in H. injection H as _ <-. simpl in Hin.
  destruct Hin as [Hin|[]]. discriminate Hin.
Qed.

(** C4, amended: parsing [")("] fails.  The loop of [term] stops at once on
    the closing parenthesis, so no factor and no base is parsed and [term]
    records "Empty factor"; the rules return the empty Sequence with the
    whole input unconsumed, and it is the trailing-input check of [parse]
    that records "Unexpected symbol: )". *)
Theorem C4_close_paren_first :
  term_continues (new_Parser ")(") = Ret false (new_Parser ")(") /\
  regex (fuel_for ")(") (new_Parser ")(") =
    Ret (Str [])
        (mkParser ")(" [")"%char; "("%char] true
           [err_line ")(" "Empty factor"]) /\
  run_parse ")(" =
    Ret None
        (mkParser ")(" [")"%char; "("%char] true
           [err_line ")(" "Empty factor";
            err_line ")(" "Unexpected symbol: )"]).
Proof. repeat split; reflexivity. Qed.

(** ** The failure flag *)

Lemma preserves_sticky {A} (m : M A) : preserves m -> sticky m.
Proof. intros Hm p a p' H. apply step_sticky. exact (Hm _ _ _ H). Qed.

(** C9: the failure flag starts unset, and no operation of the parser —
    the primitives, the grammar rules and [parse] — clears it: a call
    entered with the flag set returns with the flag set. *)
Theorem C9_failure_flag_sticky :
  (forall inp, failure (new_Parser inp) = false) /\
  sticky next_token /\ sticky peek /\
  (forall symbol, sticky (accept symbol)) /\
  (forall symbol, sticky (expect symbol)) /\
  (forall message, sticky (error message)) /\
  (forall fuel, sticky (regex fuel)) /\
  (forall fuel, sticky (term fuel)) /\
  (forall fuel, sticky (factor fuel)) /\
  (forall fuel, sticky (base fuel)) /\
  (forall fuel, sticky (parse fuel)).
Proof.
  split; [reflexivity|].
  repeat split; intros; apply preserves_sticky; auto with preserves.
  apply preserves_parse.
Qed.

Lemma C9_failure_flag_sticky_witness :
  failure (mkParser "a)" [")"%char] true [err_line "a)" "Empty factor"]) = true.
Proof.
  destruct C9_failure_flag_sticky as (_ & _ & _ & _ & _ & _ & Hregex & _).
  apply (Hregex 5
           (mkParser "a)" ["a"%char; ")"%char] true
              [err_line "a)" "Empty factor"])
           (Normal "a")); reflexivity.
Defined.

(** C7: for every input, [parse] returns; what it returns is the tree built
    by [regex] when the failure flag is unset at the end, and [None] when it
    is set.  The flag is set at the end exactly when a line was printed to
    [sys.stderr], so a recorded error always yields [None]. *)
Theorem C7_tree_iff_flag_unset inp :
  exists t p1 p',
    regex (fuel_for inp) (new_Parser inp) = Ret t p1 /\
    run_parse inp = Ret (if failure p' then None else Some t) p' /\
    failure p' = truthy (stderr p') /\
    (failure p1 = true -> failure p' = true).
Proof.
  destruct (returns_run_parse inp) as (r & p' & Hrun).
  pose proof (preserves_parse _ _ _ _ Hrun) as Hstep.
  pose proof Hrun as H. unfold run_parse, parse in H.
  apply bind_inv in H. destruct H as (t & p1 & Hregex & H).
  exists t, p1, p'. split; [exact Hregex|].
  assert (Hs1 : step p1 p').
  { assert (Hp : preserves
                   (toks <- get_tokens ;;
                    (if truthy toks
                     then c <- peek ;; error (unexpected_symbol c)
                     else ret tt) ;;
                    f <- get_failure ;;
                    ret (if negb f then Some t else None)))
      by preserves_tac.
    exact (Hp _ _ _ H). }
  apply bind_inv in H. destruct H as (toks & p2 & _ & H).
  apply bind_inv in H. destruct H as (u & p3 & _ & H).
  apply bind_inv in H. destruct H as (f & p4 & Hf & H).
  injection Hf as <- <-. apply ret_inv in H. destruct H as [<- <-].
  split; [|split].
  - rewrite Hrun. destruct (failure p3); reflexivity.
  - destruct Hstep as (_ & c & m & _ & Hs & Hfl). simpl in Hs, Hfl.
    rewrite Hfl, Hs. reflexivity.
  - apply step_sticky, Hs1.
Qed.

Lemma C7_tree_iff_flag_unset_witness :
  exists t p1 p',
    regex (fuel_for "a(") (new_Parser "a(") = Ret t p1 /\
    run_parse "a(" = Ret (if failure p' then None else Some t) p' /\
    failure p' = truthy (stderr p') /\
    (failure p1 = true -> failure p' = true).
Proof. exact (C7_tree_iff_flag_unset "a("). Defined.

(** ** Termination *)

(** C8, as stated, fails: the rules recurse once per nested group, four
    calls deep each time, and nothing catches the [RecursionError] that
    Python raises when the calls nest too deep.  On three hundred nested
    groups around one literal, a valid input, the parse ends in that
    exception whenever at most a thousand frames (the default limit) are
    available at the call. *)
Lemma C8_deep_nesting_raises_RecursionError :
  String.length deep_input = 601 /\
  valid_input deep_input /\
  run_parse_d 1000 deep_input = RecursionError /\
  forall frames, frames <= 1000 -> run_parse_d frames deep_input = RecursionError.
Proof.
  assert (H1000 : run_parse_d 1000 deep_input = RecursionError)
    by (vm_compute; reflexivity).
  split; [vm_compute; reflexivity|]. split; [|split; [exact H1000|]].
  - exists (Normal "a").
    apply (proj1 (parse_derives deep_input (Normal "a")
                    (mkParser deep_input [] false []) ltac:(vm_compute; reflexivity))).
  - intros frames Hle. unfold run_parse_d in *.
    destruct (parse_d frames (new_Parser deep_input)) as [o|] eqn:E;
      [|reflexivity].
    rewrite (more_d_parse _ _ Hle (new_Parser deep_input)) in H1000.
    + congruence.
    + rewrite E. discriminate.
Qed.

(** C8, amended: on every input, malformed or not, [parse] terminates and
    the only exception it can end in is [RecursionError]: whatever the
    number of frames available, it either returns, and then what the
    unbounded model returns, or raises [RecursionError]; it never raises
    [IndexError], which [peek] raises exactly on an empty token list, so no
    [peek] is reached without a token left.  A call of [base] that returns,
    entered with a token left, has consumed at least one token, which bounds
    the loop of [term].  The recursion is bounded by the nesting of the
    input: with [4 * k + 7] frames available, [k] being the number of
    opening parentheses of the input, [parse] returns.  In the unbounded
    model [parse] returns with the fuel of [run_parse], and with the same
    result for any larger amount. *)
Theorem C8_parse_raises_only_RecursionError :
  (forall frames inp,
      (exists r p', run_parse_d frames inp = Within (Ret r p') /\
                    run_parse inp = Ret r p') \/
      run_parse_d frames inp = RecursionError) /\
  (forall frames inp,
      4 * opens (list_ascii_of_string inp) + 7 <= frames ->
      exists r p', run_parse_d frames inp = Within (Ret r p')) /\
  (forall p, peek p = IndexError <-> tokens p = []) /\
  (forall frames p t p',
      base_d frames p = Within (Ret t p') -> tokens p <> [] ->
      List.length (tokens p') < List.length (tokens p)) /\
  (forall inp, exists r p',
      run_parse inp = Ret r p' /\
      forall fuel, fuel_for inp <= fuel ->
                   parse fuel (new_Parser inp) = Ret r p') /\
  (forall inp fuel, parse fuel (new_Parser inp) <> IndexError).
Proof.
  split; [|split; [|split; [|split; [|split]]]].
  - intros frames inp.
    destruct (fine_parse frames (new_Parser inp)) as [(r & p' & H)|[H _]].
    + left. exists r, p'. split; [exact H|].
      exact (run_parse_d_agrees _ _ _ _ H).
    + right. exact H.
  - intros frames inp Hle.
    destruct (fine_parse frames (new_Parser inp)) as [H|[_ Hlt]];
      [exact H|]. simpl in Hlt. lia.
  - intros p. unfold peek, bind, get_tokens. destruct (tokens p).
    + split; reflexivity.
    + split; discriminate.
  - intros frames p t p' H Hne.
    destruct (proj2 (proj2 (proj2 (sim_rules frames))) _ _ _ H) as [n Hn].
    exact (base_consumes _ _ _ _ Hn Hne).
  - intros inp. destruct (returns_run_parse inp) as (r & p' & Hrun).
    exists r, p'. split; [exact Hrun|]. intros fuel Hle.
    rewrite (more_parse _ _ Hle (new_Parser inp)); [exact Hrun|].
    unfold run_parse in Hrun. rewrite Hrun. discriminate.
  - intros inp fuel E.
    destruct (returns_run_parse inp) as (r & p' & Hrun). unfold run_parse in Hrun.
    destruct (Nat.le_ge_cases fuel (fuel_for inp)) as [Hle|Hle].
    + rewrite (more_parse _ _ Hle (new_Parser inp)) in Hrun.
      * congruence.
      * rewrite E. discriminate.
    + rewrite (more_parse _ _ Hle (new_Parser inp)) in E.
      * congruence.
      * rewrite Hrun. discriminate.
Qed.

Lemma C8_parse_raises_only_RecursionError_witness :
  4 * opens (list_ascii_of_string "((a)") + 7 <= 15 /\
  (exists r p', run_parse_d 15 "((a)" = Within (Ret r p')) /\
  List.length (tokens (mkParser "a(" ["("%char] false [])) <
  List.length (tokens (new_Parser "a(")) /\
  fuel_for "a(" <= 40 /\
  (exists r p', parse 40 (new_Parser "a(") = Ret r p').
Proof.
  destruct C8_parse_raises_only_RecursionError
    as (_ & Hframes & _ & Hbase & Hret & _).
  assert (Hle : 4 * opens (list_ascii_of_string "((a)") + 7 <= 15)
    by (vm_compute; lia).
  assert (Hfuel : fuel_for "a(" <= 40) by (vm_compute; lia).
  split; [exact Hle|]. split; [exact (Hframes 15 "((a)"%string Hle)|].
  split; [|split; [exact Hfuel|]].
  - apply (Hbase 3 (new_Parser "a(") (Normal "a")); [reflexivity|discriminate].
  - destruct (Hret "a("%string) as (r & p' & _ & H).
    exists r, p'. exact (H 40 Hfuel).
Defined.

(** ** Shape of the returned tree *)

(** C10: a tree returned by a successful parse is well formed: it contains
    no bare [Node] and every [Str] in it has at least two children.  More
    generally the tree built by [regex] is well formed whenever the failure
    flag is unset on return, so the empty [Str] and the bare [Node] only
    arise with the flag set; and a set flag makes [parse] return no tree. *)
Theorem C10_returned_tree_well_formed :
  (forall inp t p', run_parse inp = Ret (Some t) p' -> well_formed t = true) /\
  (forall fuel p t p',
      regex fuel p = Ret t p' -> failure p' = false -> well_formed t = true) /\
  (forall fuel p r p',
      parse fuel p = Ret r p' -> failure p' = true -> r = None) /\
  well_formed NodeObj = false /\
  (forall exps, List.length exps < 2 -> well_formed (Str exps) = false).
Proof.
  assert (Hparse : forall fuel p r p',
             parse fuel p = Ret r p' ->
             exists t p1, regex fuel p = Ret t p1 /\ step p1 p' /\
                          r = if failure p' then None else Some t).
  { intros fuel p r p' H. unfold parse in H.
    apply bind_inv in H. destruct H as (t & p1 & Hregex & H).
    exists t, p1. split; [exact Hregex|].
    assert (Hs1 : step p1 p').
    { assert (Hp : preserves
                     (toks <- get_tokens ;;
                      (if truthy toks
                       then c <- peek ;; error (unexpected_symbol c)
                       else ret tt) ;;
                      f <- get_failure ;;
                      ret (if negb f then Some t else None)))
        by preserves_tac.
      exact (Hp _ _ _ H). }
    split; [exact Hs1|].
    apply bind_inv in H. destruct H as (toks & p2 & _ & H).
    apply bind_inv in H. destruct H as (u & p3 & _ & H).
    apply bind_inv in H. destruct H as (f & p4 & Hf & H).
    injection Hf as <- <-. apply ret_inv in H. destruct H as [<- <-].
    destruct (failure p3); reflexivity. }
  split; [|split; [|split; [|split]]].
  - intros inp t p' H. apply Hparse in H.
    destruct H as (t0 & p1 & Hregex & Hs & Hr).
    destruct (failure p') eqn:Hf; [discriminate|]. injection Hr as ->.
    apply (step_clean _ _ Hs) in Hf. destruct Hf as [Hf _].
    exact (proj1 (well_formed_rules _) _ _ _ Hregex Hf).
  - intros fuel. exact (proj1 (well_formed_rules fuel)).
  - intros fuel p r p' H Hf. apply Hparse in H.
    destruct H as (t0 & p1 & _ & _ & ->). rewrite Hf. reflexivity.
  - reflexivity.
  - intros [|e1 [|e2 exps]] Hlen; try reflexivity. simpl in Hlen. lia.
Qed.

Lemma C10_returned_tree_well_formed_witness :
  well_formed (Str [Normal "a"; ZeroOrMore (Normal "b")]) = true /\
  well_formed (Str [Normal "a"; Normal "b"]) = true /\
  @None Node = None /\
  well_formed (Str [Any]) = false.
Proof.
  destruct C10_returned_tree_well_formed as (Hrun & Hregex & Hnone & _ & Hstr).
  split; [|split; [|split]].
  - apply (Hrun "ab*"%string _ (mkParser "ab*" [] false [])). reflexivity.
  - apply (Hregex 9 (new_Parser "ab") _ (mkParser "ab" [] false []));
      reflexivity.
  - apply (Hnone 8 (new_Parser "*") None
             (mkParser "*" [] true [err_line "*" "Unexpected symbol: *"]));
      reflexivity.
  - apply Hstr. simpl. lia.
Defined.

(** ** Alternation *)

(** C3: [regex] handles at most one bar.  It parses one term; if the next
    token is a bar it consumes it, parses exactly one more term and returns
    the [Or] of the two; otherwise it returns the term.  It never looks for
    a second bar: when it returns in front of a bar, its result is an [Or].
    On ["a|b|c"] the rules return [Or a b] and leave ["|c"], and [parse]
    fails with "Unexpected symbol: |" from its trailing-input check. *)
Theorem C3_one_bar_per_regex :
  (forall fuel p,
      regex (S fuel) p =
      match term fuel p with
      | Ret term1 p1 =>
          match tokens p1 with
          | c :: rest =>
              if Ascii.eqb c "|" then
                match term fuel (set_tokens p1 rest) with
                | Ret term2 p2 => Ret (Or term1 term2) p2
                | IndexError => IndexError
                | OutOfFuel => OutOfFuel
                end
              else Ret term1 p1
          | [] => Ret term1 p1
          end
      | IndexError => IndexError
      | OutOfFuel => OutOfFuel
      end) /\
  (forall fuel p t p' rest,
      regex fuel p = Ret t p' -> tokens p' = "|"%char :: rest ->
      exists term1 term2, t = Or term1 term2) /\
  regex (fuel_for "a|b|c") (new_Parser "a|b|c") =
    Ret (Or (Normal "a") (Normal "b"))
        (mkParser "a|b|c" ["|"%char; "c"%char] false []) /\
  run_parse "a|b|c" =
    Ret None
        (mkParser "a|b|c" ["|"%char; "c"%char] true
           [err_line "a|b|c" "Unexpected symbol: |"]).
Proof.
  split; [exact regex_unfold|]. split; [|split; reflexivity].
  intros [|fuel] p t p' rest H Ht; [discriminate|].
  rewrite regex_unfold in H.
  destruct (term fuel p) as [term1 p1| |]; try discriminate.
  destruct (tokens p1) as [|c rest1] eqn:Ht1.
  - injection H as <- <-. congruence.
  - destruct (Ascii.eqb_spec c "|") as [->|Hne].
    + destruct (term fuel (set_tokens p1 rest1)) as [term2 p2| |];
        try discriminate.
      injection H as <- <-. eauto.
    + injection H as <- <-. congruence.
Qed.

Lemma C3_one_bar_per_regex_witness :
  exists term1 term2, Or (Normal "a") (Normal "b") = Or term1 term2.
Proof.
  destruct C3_one_bar_per_regex as (_ & Hbar & _).
  apply (Hbar (fuel_for "a|b|c") (new_Parser "a|b|c") _
              (mkParser "a|b|c" ["|"%char; "c"%char] false []) ["c"%char]);
    reflexivity.
Defined.

(** ** Rendering and parsing again *)

Lemma spec_term_literal c :
  is_literal c = true -> spec_term [c] (Normal c).
Proof.
  intros Hc. apply (spec_term_factors _ [Normal c]).
  apply spec_factors_one, spec_factor_base, spec_base_char, Hc.
Qed.

Lemma spec_base_a_bar_b :
  spec_base ["("; "a"; "|"; "b"; ")"]%char (Or (Normal "a") (Normal "b")).
Proof.
  apply (spec_base_group ["a"; "|"; "b"]%char).
  apply (spec_regex_alt ["a"%char] _ ["b"%char]);
    apply spec_term_literal; reflexivity.
Qed.

(** C1, as stated, fails: the display form of an [Or] has no parentheses
    and that of a [ZeroOrMore] only appends a star.  The input [(a|b)|c] is
    valid and parses, but its tree renders as [a|b|c], which does not
    parse; the starred group of [a*], starred again, renders as [a**],
    which does not parse either; and the tree of [(a|b)c] renders as
    [(a|bc)], which parses to a tree that renders as [a|(bc)]. *)
Lemma C1_rendering_not_stable :
  (valid_input "(a|b)|c" /\ ~ render_stable "(a|b)|c") /\
  (valid_input "(a*)*" /\ ~ render_stable "(a*)*") /\
  (valid_input "(a|b)c" /\ ~ render_stable "(a|b)c").
Proof.
  split; [|split]; split.
  - exists (Or (Or (Normal "a") (Normal "b")) (Normal "c")).
    apply (spec_regex_alt ["("; "a"; "|"; "b"; ")"]%char _ ["c"%char]).
    + apply (spec_term_factors _ [Or (Normal "a") (Normal "b")]).
      apply spec_factors_one, spec_factor_base, spec_base_a_bar_b.
    + apply spec_term_literal. reflexivity.
  - intros (t & p' & H1 & t' & p'' & H2 & _).
    vm_compute in H1. injection H1 as <- <-.
    vm_compute in H2. discriminate H2.
  - exists (ZeroOrMore (ZeroOrMore (Normal "a"))).
    apply spec_regex_term.
    apply (spec_term_factors _ [ZeroOrMore (ZeroOrMore (Normal "a"))]).
    apply spec_factors_one.
    apply (spec_factor_star ["("; "a"; "*"; ")"]%char).
    apply (spec_base_group ["a"; "*"]%char).
    apply spec_regex_term.
    apply (spec_term_factors _ [ZeroOrMore (Normal "a")]).
    apply spec_factors_one.
    apply (spec_factor_star ["a"%char]).
    apply spec_base_char. reflexivity.
  - intros (t & p' & H1 & t' & p'' & H2 & _).
    vm_compute in H1. injection H1 as <- <-.
    vm_compute in H2. discriminate H2.
  - exists (Str [Or (Normal "a") (Normal "b"); Normal "c"]).
    apply spec_regex_term.
    apply (spec_term_factors _ [Or (Normal "a") (Normal "b"); Normal "c"]).
    apply (spec_factors_more ["("; "a"; "|"; "b"; ")"]%char _ ["c"%char]).
    + apply spec_factor_base, spec_base_a_bar_b.
    + apply spec_factors_one, spec_factor_base, spec_base_char. reflexivity.
  - intros (t & p' & H1 & t' & p'' & H2 & H3).
    vm_compute in H1. injection H1 as <- <-.
    vm_compute in H2. injection H2 as <- <-.
    vm_compute in H3. discriminate H3.
Qed.

(** C1, amended: every valid input parses, to the tree the grammar gives it,
    consuming the whole input without error.  When that tree has no [Or]
    below its root and no [ZeroOrMore] directly under a [ZeroOrMore],
    parsing its display form succeeds and yields the same tree again, so
    the rendering of the re-parsed tree equals the rendering. *)
Theorem C1_valid_input_parses_and_flat_rendering_round_trips inp :
  valid_input inp ->
  exists t,
    run_parse inp = Ret (Some t) (mkParser inp [] false []) /\
    (or_at_root_only t = true -> star_once t = true ->
     run_parse (to_str t) = Ret (Some t) (mkParser (to_str t) [] false []) /\
     render_stable inp).
Proof.
  intros (t & Hg). exists t.
  pose proof (parse_accepts _ _ Hg) as Hrun.
  split; [exact Hrun|]. intros Hor Hstar.
  assert (Hagain : run_parse (to_str t) =
                   Ret (Some t) (mkParser (to_str t) [] false [])).
  { apply parse_accepts. apply render_regex; [|exact Hor|exact Hstar].
    exact (proj1 spec_grammar_shape _ _ Hg). }
  split; [exact Hagain|].
  exists t, (mkParser inp [] false []). split; [exact Hrun|].
  exists t, (mkParser (to_str t) [] false []). split; [exact Hagain|reflexivity].
Qed.

Lemma C1_valid_input_parses_and_flat_rendering_round_trips_witness :
  valid_input "ab*" /\
  run_parse "(ab*)" =
    Ret (Some (Str [Normal "a"; ZeroOrMore (Normal "b")]))
        (mkParser "(ab*)" [] false []) /\
  render_stable "ab*".
Proof.
  assert (Hv : valid_input "ab*").
  { exists (Str [Normal "a"; ZeroOrMore (Normal "b")]).
    apply spec_regex_term.
    apply (spec_term_factors _ [Normal "a"; ZeroOrMore (Normal "b")]).
    apply (spec_factors_more ["a"%char] _ ["b"; "*"]%char).
    - apply spec_factor_base, spec_base_char. reflexivity.
    - apply spec_factors_one. apply (spec_factor_star ["b"%char]).
      apply spec_base_char. reflexivity. }
  split; [exact Hv|].
  destruct (C1_valid_input_parses_and_flat_rendering_round_trips "ab*" Hv)
    as (t & H1 & H2).
  vm_compute in H1. injection H1 as <-.
  exact (H2 eq_refl eq_refl).
Defined.

(** * Further properties of the code *)

(** ** The accepted language *)

(** X1: [parse] returns a tree exactly for the inputs the grammar derives,
    and the tree is the one the grammar gives: one or more factors per
    term, at most one star per factor, at most one bar per regex. *)
Theorem parse_succeeds_iff_derived inp t :
  (exists p', run_parse inp = Ret (Some t) p') <->
  spec_regex (list_ascii_of_string inp) t.
Proof.
  split.
  - intros (p' & H). exact (proj1 (parse_derives _ _ _ H)).
  - intros H. eexists. exact (parse_accepts _ _ H).
Qed.

Lemma parse_succeeds_iff_derived_witness :
  spec_regex ["a"; "|"; "b"]%char (Or (Normal "a") (Normal "b")).
Proof.
  apply (proj1 (parse_succeeds_iff_derived "a|b" _)).
  exists (mkParser "a|b" [] false []). reflexivity.
Defined.

(** X2: a successful parse has consumed every token, left the failure flag
    unset and printed nothing. *)
Theorem successful_parse_consumes_all inp t p' :
  run_parse inp = Ret (Some t) p' -> p' = mkParser inp [] false [].
Proof. intros H. exact (proj2 (parse_derives _ _ _ H)). Qed.

Lemma successful_parse_consumes_all_witness :
  mkParser "a.*" [] false [] = mkParser "a.*" [] false [].
Proof.
  apply (successful_parse_consumes_all "a.*"
           (Str [Normal "a"; ZeroOrMore Any])).
  reflexivity.
Defined.

(** X3: the display form of the tree a successful parse returns differs
    from the input in parentheses only. *)
Theorem display_form_keeps_all_but_parentheses inp t p' :
  run_parse inp = Ret (Some t) p' ->
  strip_parens (to_chars t) = strip_parens (list_ascii_of_string inp).
Proof.
  intros H. apply (proj1 grammar_strip_parens).
  exact (proj1 (parse_derives _ _ _ H)).
Qed.

Lemma display_form_keeps_all_but_parentheses_witness :
  strip_parens (to_chars (Str [Or (Normal "a") (Normal "b"); Normal "c"])) =
  strip_parens (list_ascii_of_string "(a|b)c").
Proof.
  apply (display_form_keeps_all_but_parentheses _ _
           (mkParser "(a|b)c" [] false [])).
  reflexivity.
Defined.

(** X4: in the tree a successful parse returns, every [Normal] holds a
    character that is not reserved (none of the two parentheses, the bar,
    the star and the dot), besides the tree being well formed. *)
Theorem parsed_literals_not_reserved inp t p' :
  run_parse inp = Ret (Some t) p' -> grammar_shape t = true.
Proof.
  intros H. apply (proj1 spec_grammar_shape (list_ascii_of_string inp)).
  exact (proj1 (parse_derives _ _ _ H)).
Qed.

Lemma parsed_literals_not_reserved_witness :
  grammar_shape (Str [Normal "a"; ZeroOrMore Any]) = true.
Proof.
  apply (parsed_literals_not_reserved "a.*" _ (mkParser "a.*" [] false [])).
  reflexivity.
Defined.

Lemma spec_regex_starts s t : spec_regex s t -> starts_base s.
Proof.
  assert (Hterm : forall s t, spec_term s t -> starts_base s).
  { intros s0 t0 H. inversion H; subst.
    eapply spec_factors_starts; eassumption. }
  intros H. inversion H; subst.
  - eapply Hterm; eassumption.
  - apply starts_base_app. eapply Hterm; eassumption.
Qed.

(** X5: an input that parses is not empty and does not begin with a closing
    parenthesis, a bar or a star; and it has as many opening as closing
    parentheses. *)
Theorem parsed_input_starts_a_base_and_is_balanced inp t p' :
  run_parse inp = Ret (Some t) p' ->
  starts_base (list_ascii_of_string inp) /\
  balanced (list_ascii_of_string inp).
Proof.
  intros H. apply parse_derives in H. destruct H as [H _]. split.
  - exact (spec_regex_starts _ _ H).
  - exact (proj1 grammar_balanced _ _ H).
Qed.

Lemma parsed_input_starts_a_base_and_is_balanced_witness :
  starts_base (list_ascii_of_string "(a.*)|(bb)") /\
  balanced (list_ascii_of_string "(a.*)|(bb)").
Proof.
  apply (parsed_input_starts_a_base_and_is_balanced _
           (Or (Str [Normal "a"; ZeroOrMore Any]) (Str [Normal "b"; Normal "b"]))
           (mkParser "(a.*)|(bb)" [] false [])).
  reflexivity.
Defined.

(** ** Tokens and diagnostics *)

(** X6: the parser only consumes tokens from the front and never alters
    its input text: after any call of [regex], and after [parse], the
    remaining tokens are a suffix of the tokens before. *)
Theorem tokens_consumed_from_the_front :
  (forall fuel p t p',
      regex fuel p = Ret t p' ->
      inp p' = inp p /\ exists consumed, tokens p = consumed ++ tokens p') /\
  (forall text r p',
      run_parse text = Ret r p' ->
      inp p' = text /\
      exists consumed, list_ascii_of_string text = consumed ++ tokens p').
Proof.
  assert (Hstep : forall p p', step p p' ->
            inp p' = inp p /\ exists consumed, tokens p = consumed ++ tokens p').
  { intros p p' (Hi & c & m & Ht & _). eauto. }
  split.
  - intros fuel p t p' H. exact (Hstep _ _ (preserves_regex _ _ _ _ H)).
  - intros text r p' H. exact (Hstep _ _ (preserves_parse _ _ _ _ H)).
Qed.

Lemma tokens_consumed_from_the_front_witness :
  exists consumed, list_ascii_of_string "a|b|c" = consumed ++ ["|"; "c"]%char.
Proof.
  destruct tokens_consumed_from_the_front as (_ & Hparse).
  apply (Hparse "a|b|c"%string None
           (mkParser "a|b|c" ["|"; "c"]%char true
              [err_line "a|b|c" "Unexpected symbol: |"])).
  reflexivity.
Defined.

(** X7: every line [parse] prints to [sys.stderr] has the form
    [Parsing error on input '<input>' : <reason>], with the original input
    and one of three reasons: "Empty factor", "Unexpected end of file" or
    "Unexpected symbol: " followed by one character. *)
Theorem diagnostics_have_known_format text r p' :
  run_parse text = Ret r p' ->
  exists msgs,
    stderr p' = map (err_line text) msgs /\ Forall known_message msgs.
Proof.
  intros H. destruct (reporting_parse _ _ _ _ H) as (_ & msgs & Hs & Hk).
  exists msgs. split; [exact Hs|exact Hk].
Qed.

Lemma diagnostics_have_known_format_witness :
  exists msgs,
    [err_line "a(" "Empty factor"; err_line "a(" "Unexpected end of file"] =
    map (err_line "a(") msgs /\ Forall known_message msgs.
Proof.
  apply (diagnostics_have_known_format "a(" None
           (mkParser "a(" [] true
              [err_line "a(" "Empty factor";
               err_line "a(" "Unexpected end of file"])).
  reflexivity.
Defined.

(** X8: the grammar rules stop only at the end of the input or in front of
    a closing parenthesis or a bar.  So when [parse] finds input left over,
    the symbol its last diagnostic names is one of these two, and no tree
    is returned. *)
Theorem trailing_symbol_is_close_or_bar :
  (forall fuel p t p', term fuel p = Ret t p' -> ends_term (tokens p')) /\
  (forall fuel p t p', regex fuel p = Ret t p' -> ends_term (tokens p')) /\
  (forall text r p',
      run_parse text = Ret r p' -> tokens p' <> [] ->
      exists c rest printed,
        tokens p' = c :: rest /\ (c = ")"%char \/ c = "|"%char) /\
        r = None /\
        stderr p' = printed ++ [err_line text (unexpected_symbol c)]).
Proof.
  split; [exact term_stops|]. split; [exact regex_stops|].
  intros text r p' H Hne. unfold run_parse in H.
  apply parse_inv in H. destruct H as (t & p1 & Hregex & Hr & Hend).
  pose proof (regex_stops _ _ _ _ Hregex) as Hstop.
  destruct (preserves_regex _ _ _ _ Hregex) as (Hinp & _). simpl in Hinp.
  destruct Hend as [[Ht ->]|(c & rest & Ht & ->)]; [contradiction|].
  simpl in *. exists c, rest, (stderr p1).
  split; [exact Ht|]. split; [|split].
  - destruct Hstop as [Hs|(c' & rest' & Hs & Hc)]; [congruence|].
    rewrite Ht in Hs. injection Hs as -> _. exact Hc.
  - exact Hr.
  - rewrite Hinp. reflexivity.
Qed.

Lemma trailing_symbol_is_close_or_bar_witness :
  ends_term [")"; "("]%char /\
  exists c rest printed,
    [")"; "("]%char = c :: rest /\ (c = ")"%char \/ c = "|"%char) /\
    @None Node = None /\
    [err_line ")(" "Empty factor"; err_line ")(" "Unexpected symbol: )"] =
    printed ++ [err_line ")(" (unexpected_symbol c)].
Proof.
  destruct trailing_symbol_is_close_or_bar as (_ & Hregex & Hparse). split.
  - apply (Hregex 9 (new_Parser ")(") (Str [])
             (mkParser ")(" [")"; "("]%char true [err_line ")(" "Empty factor"])).
    reflexivity.
  - apply (Hparse ")("%string None
             (mkParser ")(" [")"; "("]%char true
                [err_line ")(" "Empty factor";
                 err_line ")(" "Unexpected symbol: )"])).
    + reflexivity.
    + discriminate.
Defined.

(** ** The primitive operations *)

(** X9: [accept] never raises and never touches the failure flag or
    [sys.stderr]; it returns [True] exactly when the next token is the
    symbol, having consumed that one token, and otherwise (another token,
    or none left) returns [False] with the parser unchanged. *)
Theorem accept_consumes_only_the_symbol symbol p :
  exists b p',
    accept symbol p = Ret b p' /\
    (b = true <-> hd_error (tokens p) = Some symbol) /\
    (b = true -> p' = set_tokens p (tl (tokens p))) /\
    (b = false -> p' = p).
Proof.
  destruct (returns_accept symbol p) as (b & p' & H).
  exists b, p'. split; [exact H|].
  apply accept_inv in H.
  destruct H as [(-> & rest & Ht & ->)|(-> & -> & Hne)].
  - rewrite Ht. simpl. repeat split; auto. discriminate.
  - split; [|split]; [split|..]; try discriminate; auto.
Qed.

Lemma accept_consumes_only_the_symbol_witness :
  exists b p',
    accept "(" (new_Parser "(a)") = Ret b p' /\
    (b = true <-> hd_error (tokens (new_Parser "(a)")) = Some "("%char) /\
    (b = true ->
     p' = set_tokens (new_Parser "(a)") (tl (tokens (new_Parser "(a)")))) /\
    (b = false -> p' = new_Parser "(a)").
Proof. exact (accept_consumes_only_the_symbol "(" (new_Parser "(a)")). Defined.

(** X10: [expect] never raises.  On the expected symbol it returns [True]
    and consumes it, printing nothing.  Otherwise it returns [None],
    consumes nothing, sets the failure flag and prints one line: "Unexpected
    symbol: c" when another token [c] is next, "Unexpected end of file" when
    no token is left. *)
Theorem expect_reports_what_it_found symbol p :
  (forall rest,
      tokens p = symbol :: rest ->
      expect symbol p = Ret (Some true) (set_tokens p rest)) /\
  (forall c rest,
      tokens p = c :: rest -> c <> symbol ->
      expect symbol p =
      Ret None
          (mkParser (inp p) (tokens p) true
             (stderr p ++ [err_line (inp p) (unexpected_symbol c)]))) /\
  (tokens p = [] ->
   expect symbol p =
   Ret None
       (mkParser (inp p) (tokens p) true
          (stderr p ++ [err_line (inp p) "Unexpected end of file"]))).
Proof.
  split; [|split].
  - intros rest Ht. exact (expect_hit _ _ _ Ht).
  - intros c rest Ht Hne.
    destruct (returns_expect symbol p) as (o & p' & H). rewrite H.
    apply expect_inv in H.
    destruct H as [(_ & rest' & Ht' & _)|(-> & _ & ->)]; [congruence|].
    rewrite Ht. reflexivity.
  - intros Ht.
    destruct (returns_expect symbol p) as (o & p' & H). rewrite H.
    apply expect_inv in H.
    destruct H as [(_ & rest' & Ht' & _)|(-> & _ & ->)]; [congruence|].
    rewrite Ht. reflexivity.
Qed.

Lemma expect_reports_what_it_found_witness :
  expect ")" (mkParser "(a" [] false []) =
  Ret None
      (mkParser "(a" [] true [err_line "(a" "Unexpected end of file"]) /\
  expect ")" (mkParser "(a|" ["|"%char] false []) =
  Ret None
      (mkParser "(a|" ["|"%char] true [err_line "(a|" "Unexpected symbol: |"]) /\
  expect ")" (mkParser "(a)" [")"%char] false []) =
  Ret (Some true) (mkParser "(a)" [] false []).
Proof.
  split; [|split].
  - apply (proj2 (proj2 (expect_reports_what_it_found ")"
                           (mkParser "(a" [] false [])))).
    reflexivity.
  - apply (proj1 (proj2 (expect_reports_what_it_found ")"
                           (mkParser "(a|" ["|"%char] false [])))
             "|"%char []); [reflexivity|discriminate].
  - apply (proj1 (expect_reports_what_it_found ")"
                    (mkParser "(a)" [")"%char] false [])) []).
    reflexivity.
Defined.

(** ** The debug form *)

Lemma for_each_bare_child exps :
  In NodeObj exps ->
  for_each ast_str exps = TypeError \/
  exists items, for_each ast_str exps = Returned items /\
                all_strings items = TypeError.
Proof.
  induction exps as [|e exps IH]; intros Hin; [contradiction|].
  simpl. destruct Hin as [->|Hin].
  - simpl. destruct (for_each ast_str exps) as [vs|]; [|left; reflexivity].
    right. eexists. split; reflexivity.
  - destruct (ast_str e) as [v|]; [|left; reflexivity].
    destruct (IH Hin) as [->|(items & -> & Hall)]; [left; reflexivity|].
    right. eexists. split; [reflexivity|].
    simpl. rewrite Hall. destruct v; reflexivity.
Qed.

(** X11: on a tree without bare [Node] — in particular on every tree a
    successful parse returns — [ast_str] returns a string.  It returns
    [None] for the bare [Node] only, and it raises [TypeError] on a [Str]
    that has a bare [Node] among its children. *)
Theorem ast_str_returns_a_string :
  (forall t, concrete t = true -> exists s, ast_str t = Returned (IsStr s)) /\
  (forall text t p',
      run_parse text = Ret (Some t) p' ->
      exists s, ast_str t = Returned (IsStr s)) /\
  (forall t, ast_str t = Returned IsNone <-> t = NodeObj) /\
  (forall exps, In NodeObj exps -> ast_str (Str exps) = TypeError).
Proof.
  assert (Hc : forall t, concrete t = true ->
                         exists s, ast_str t = Returned (IsStr s)).
  { intros t H. destruct (ast_str_concrete t H) as (s & Hs & _). eauto. }
  split; [exact Hc|]. split; [|split].
  - intros text t p' H. exact (Hc _ (parsed_concrete _ _ _ H)).
  - intros t. split; [|intros ->; reflexivity].
    destruct t; simpl; try discriminate; try reflexivity.
    + destruct (ast_str t); discriminate.
    + destruct (ast_str t1); [|discriminate].
      destruct (ast_str t2); discriminate.
    + destruct (for_each ast_str exps); [|discriminate].
      destruct (join ", " a); discriminate.
  - intros exps Hin. simpl.
    destruct (for_each_bare_child exps Hin) as [->|(items & -> & Hall)];
      [reflexivity|].
    unfold join. rewrite Hall. reflexivity.
Qed.

Lemma ast_str_returns_a_string_witness :
  (exists s, ast_str (Or Any (Normal "b")) = Returned (IsStr s)) /\
  (exists s, ast_str (ZeroOrMore (Or (Normal "a") (Normal "b"))) =
             Returned (IsStr s)) /\
  NodeObj = NodeObj /\
  ast_str (Str [ZeroOrMore (Normal "a"); NodeObj]) = TypeError.
Proof.
  destruct ast_str_returns_a_string as (Hc & Hp & Hn & He).
  split; [|split; [|split]].
  - apply Hc. reflexivity.
  - apply (Hp "(a|b)*"%string _ (mkParser "(a|b)*" [] false [])). reflexivity.
  - apply (proj1 (Hn NodeObj)). reflexivity.
  - apply He. simpl. auto.
Defined.

Lemma ast_str_concrete_injective t1 t2 :
  concrete t1 = true -> concrete t2 = true ->
  ast_str t1 = ast_str t2 -> t1 = t2.
Proof.
  intros C1 C2 H.
  destruct (ast_str_concrete _ C1) as (s1 & H1 & Hs1).
  destruct (ast_str_concrete _ C2) as (s2 & H2 & Hs2).
  rewrite H1, H2 in H. injection H as ->.
  assert (Hd : debug_chars t1 ++ [] = debug_chars t2 ++ [])
    by (rewrite !app_nil_r; congruence).
  exact (proj1 (debug_chars_prefix_free t1 C1 t2 C2 _ _ Hd)).
Qed.

(** X12: the debug form is unambiguous on what the parser builds: when two
    successful parses, of whatever inputs, return trees for which [ast_str]
    returns the same string, the two trees are equal.  (Every [Normal] the
    parser builds holds exactly one character, the token it wraps.) *)
Theorem ast_str_injective_on_parsed_trees text1 t1 p1 text2 t2 p2 :
  run_parse text1 = Ret (Some t1) p1 ->
  run_parse text2 = Ret (Some t2) p2 ->
  ast_str t1 = ast_str t2 -> t1 = t2.
Proof.
  intros H1 H2. apply ast_str_concrete_injective.
  - exact (parsed_concrete _ _ _ H1).
  - exact (parsed_concrete _ _ _ H2).
Qed.

Lemma ast_str_injective_on_parsed_trees_witness :
  Str [Normal "a"; Normal "b"] = Str [Normal "a"; Normal "b"].
Proof.
  apply (ast_str_injective_on_parsed_trees
           "ab" _ (mkParser "ab" [] false [])
           "(ab)" _ (mkParser "(ab)" [] false [])); reflexivity.
Defined.

(** ** The driver *)

(** X13: what [parse_reg_exp] does once [parser.parse()] has returned,
    with whatever number of frames.  If the parse returned a tree,
    [parse_reg_exp] returns that tree, having printed the input, the debug
    form (a string: [ast_str] raises no [TypeError] on it), the display
    form and a separator to [sys.stdout] and nothing to [sys.stderr].  If
    the parse returned [None], it returns the empty string, having printed
    [None] for both forms, and at least one diagnostic is on
    [sys.stderr]. *)
Theorem parse_reg_exp_reports_the_parse :
  (forall frames text t p',
      run_parse_d frames text = Within (Ret (Some t) p') ->
      exists s,
        ast_str t = Returned (IsStr s) /\
        parse_reg_exp text =
        Finished (inl t)
          [("Input: " ++ text)%string; ("AST: " ++ s)%string;
           ("RegEx: " ++ to_str t)%string; "==="%string]
          []) /\
  (forall frames text p',
      run_parse_d frames text = Within (Ret None p') ->
      stderr p' <> [] /\
      parse_reg_exp text =
      Finished (inr EmptyString)
        [("Input: " ++ text)%string; "AST: None"%string;
         "RegEx: None"%string; "==="%string]
        (stderr p')).
Proof.
  split.
  - intros frames text t p' H. apply run_parse_d_agrees in H.
    pose proof (parse_derives _ _ _ H) as [_ ->].
    destruct (ast_str_concrete _ (parsed_concrete _ _ _ H)) as (s & Hs & _).
    exists s. split; [exact Hs|].
    unfold parse_reg_exp. rewrite H. simpl. rewrite Hs. reflexivity.
  - intros frames text p' H. apply run_parse_d_agrees in H. split.
    + pose proof (preserves_parse _ _ _ _ H) as (_ & c & m & _ & Hs & Hf).
      unfold run_parse in H. apply parse_inv in H.
      destruct H as (t & p1 & _ & Hr & _).
      destruct (failure p') eqn:Hfl; [|discriminate].
      simpl in Hs, Hf. rewrite Hs. destruct m; [discriminate|]. discriminate.
    + unfold parse_reg_exp. rewrite H. reflexivity.
Qed.

Lemma parse_reg_exp_reports_the_parse_witness :
  (exists s,
      ast_str (Or (Normal "a") (Normal "b")) = Returned (IsStr s) /\
      parse_reg_exp "a|b" =
      Finished (inl (Or (Normal "a") (Normal "b")))
        ["Input: a|b"%string; ("AST: " ++ s)%string; "RegEx: a|b"%string;
         "==="%string]
        []) /\
  ([err_line "a(" "Empty factor"; err_line "a(" "Unexpected end of file"]
     <> [] /\
   parse_reg_exp "a(" =
   Finished (inr EmptyString)
     ["Input: a("%string; "AST: None"%string; "RegEx: None"%string;
      "==="%string]
     [err_line "a(" "Empty factor"; err_line "a(" "Unexpected end of file"]).
Proof.
  destruct parse_reg_exp_reports_the_parse as (Htree & Hnone). split.
  - exact (Htree 20 "a|b"%string (Or (Normal "a") (Normal "b"))
             (mkParser "a|b" [] false []) eq_refl).
  - exact (Hnone 20 "a("%string
             (mkParser "a(" [] true
                [err_line "a(" "Empty factor";
                 err_line "a(" "Unexpected end of file"]) eq_refl).
Defined.

(** X14: the [__main__] block.  The eleven inputs listed first all parse,
    and the six listed under "Error cases" all make [parse_reg_exp] return
    the empty string; no call ends in an exception.  The display forms of
    the returned trees are as follows (the fifth and the sixth input, which
    differ by a pair of parentheses, give different trees with the same
    display form). *)
Theorem main_demo_results :
  map returned_text main =
  [Some "(ab*)"; Some "(ab)*"; Some "(ab)|a"; Some "(ab|a)"; Some "a|b*";
   Some "a|b*"; Some "a|b"; Some "a"; Some "(ab)"; Some "(a.*)";
   Some "(a.*)|(bb)";
   Some ""; Some ""; Some ""; Some ""; Some ""; Some ""]%string /\
  map (fun r => match r with
                | Finished (inl _) _ _ => true
                | _ => false
                end) main =
  [true; true; true; true; true; true; true; true; true; true; true;
   false; false; false; false; false; false].
Proof. split; vm_compute; reflexivity. Qed.

(** ** The singleton collapse *)

(** X15: no rule ever returns a tree with a one-element [Str] in it,
    whether or not an error was recorded on the way: [term] unwraps every
    single factor. *)
Theorem no_rule_returns_a_singleton_Str :
  (forall fuel p t p', regex fuel p = Ret t p' -> no_singleton t = true) /\
  (forall fuel p t p', term fuel p = Ret t p' -> no_singleton t = true) /\
  (forall fuel p t p', factor fuel p = Ret t p' -> no_singleton t = true) /\
  (forall fuel p t p', base fuel p = Ret t p' -> no_singleton t = true).
Proof.
  split; [|split; [|split]]; intros fuel; apply (no_singleton_rules fuel).
Qed.

Lemma no_rule_returns_a_singleton_Str_witness :
  no_singleton (Str [ZeroOrMore (Normal "a"); NodeObj]) = true.
Proof.
  destruct no_rule_returns_a_singleton_Str as (Hregex & _).
  apply (Hregex (fuel_for "a**") (new_Parser "a**") _
           (mkParser "a**" [] true [err_line "a**" "Unexpected symbol: *"])).
  reflexivity.
Defined.

(** ** Grouping composes *)

(** X16: parentheses around an input that parses do not change its tree;
    a star after the closing parenthesis wraps the tree in [ZeroOrMore];
    two parenthesised inputs that parse give, around a bar, the [Or] of
    their trees and, one after the other, the [Str] of their trees. *)
Theorem grouping_composes text1 t1 p1 text2 t2 p2 :
  run_parse text1 = Ret (Some t1) p1 ->
  run_parse text2 = Ret (Some t2) p2 ->
  (exists p, run_parse ("(" ++ text1 ++ ")") = Ret (Some t1) p) /\
  (exists p, run_parse ("(" ++ text1 ++ ")*") = Ret (Some (ZeroOrMore t1)) p) /\
  (exists p, run_parse ("(" ++ text1 ++ ")|(" ++ text2 ++ ")") =
             Ret (Some (Or t1 t2)) p) /\
  (exists p, run_parse ("(" ++ text1 ++ ")(" ++ text2 ++ ")") =
             Ret (Some (Str [t1; t2])) p).
Proof.
  intros H1 H2.
  apply parse_derives in H1, H2. destruct H1 as [G1 _], H2 as [G2 _].
  pose proof (spec_regex_group _ _ G1) as B1.
  pose proof (spec_regex_group _ _ G2) as B2.
  split; [|split; [|split]]; eexists; apply parse_accepts.
  - rewrite chars_group. apply spec_regex_term, spec_term_of_base, B1.
  - replace (list_ascii_of_string ("(" ++ text1 ++ ")*"))
      with (("("%char :: list_ascii_of_string text1 ++ [")"%char]) ++ ["*"%char]).
    + apply spec_regex_term. change (ZeroOrMore t1) with (collapse [ZeroOrMore t1]).
      apply spec_term_factors, spec_factors_one, spec_factor_star, B1.
    + simpl. rewrite list_ascii_of_string_app, <- app_assoc. reflexivity.
  - replace (list_ascii_of_string ("(" ++ text1 ++ ")|(" ++ text2 ++ ")"))
      with (("("%char :: list_ascii_of_string text1 ++ [")"%char]) ++
            "|"%char :: "("%char :: list_ascii_of_string text2 ++ [")"%char]).
    + apply spec_regex_alt; apply spec_term_of_base; assumption.
    + simpl. rewrite !list_ascii_of_string_app, <- app_assoc. simpl.
      rewrite list_ascii_of_string_app. reflexivity.
  - replace (list_ascii_of_string ("(" ++ text1 ++ ")(" ++ text2 ++ ")"))
      with (("("%char :: list_ascii_of_string text1 ++ [")"%char]) ++
            "("%char :: list_ascii_of_string text2 ++ [")"%char]).
    + apply spec_regex_term. change (Str [t1; t2]) with (collapse [t1; t2]).
      apply spec_term_factors, spec_factors_more;
        [|apply spec_factors_one]; apply spec_factor_base; assumption.
    + simpl. rewrite !list_ascii_of_string_app, <- app_assoc. simpl.
      rewrite list_ascii_of_string_app. reflexivity.
Qed.

Lemma grouping_composes_witness :
  (exists p, run_parse "(ab)" = Ret (Some (Str [Normal "a"; Normal "b"])) p) /\
  (exists p, run_parse "(ab)*" =
             Ret (Some (ZeroOrMore (Str [Normal "a"; Normal "b"]))) p) /\
  (exists p, run_parse "(ab)|(c*)" =
             Ret (Some (Or (Str [Normal "a"; Normal "b"])
                           (ZeroOrMore (Normal "c")))) p) /\
  (exists p, run_parse "(ab)(c*)" =
             Ret (Some (Str [Str [Normal "a"; Normal "b"];
                             ZeroOrMore (Normal "c")])) p).
Proof.
  apply (grouping_composes "ab" _ (mkParser "ab" [] false [])
                           "c*" _ (mkParser "c*" [] false []));
    reflexivity.
Defined.
